(** * tabulator: side-by-side, word-wrapped text columns

    A shallow embedding of [tabulator.h] and the properties of its
    line-breaking and row-emission code.

    Modelling conventions.
    - [char] is [ascii]; a text [const char *p] is the list of its [size]
      characters, and reading [p[i]] is [nth i p zero]: the terminating NUL
      of the C string sits at index [size].  A text built from a
      [std::string] may hold NUL characters before that index.
    - [std::ostream] is the list of the characters written so far, oldest
      first; [os.put(ch)] appends one character, [os << sep] appends a list.
    - [size_t] counters are [nat].  Every counter of the code stays within
      the text size or the column width ([cp <= size], [lp <= size],
      [l <= width]); only the index of [switch_col] with a tab fill steps
      over [width], by less than 8, and wraps around when the width is
      within 7 of [SIZE_MAX].  The fill loop is therefore also given on a
      64-bit [size_t] ([switch_col_loop_size_t] and the functions on it);
      [fill_in_range] is the condition under which the two agree.
    - [std::isblank] is taken in the "C" locale: space and horizontal tab.
    - The arrays [array<colstate,N>] and [array<column,N>] are lists that are
      walked in lock-step.
    - Loops are recursive functions on a fuel that is the loop's own
      variant; the loop of [tabulate] returns [None] when fuel runs out. *)

From Stdlib Require Import List Arith Bool Ascii String Lia PeanoNat NArith.
Import ListNotations.

(** ** Characters and streams *)

Definition ostream := list ascii.

Definition NUL : ascii := Ascii.zero.
Definition LF : ascii := ascii_of_nat 10.
Definition TAB : ascii := ascii_of_nat 9.
Definition SPACE : ascii := ascii_of_nat 32.

(** [os.put(ch)] *)
Definition put (os : ostream) (ch : ascii) : ostream := os ++ [ch].

(** [os << s] for a string [s] *)
Definition write (os : ostream) (s : list ascii) : ostream := os ++ s.

Module tabulator.

(** ** struct column *)

Record column := mk_column { p : list ascii; width : nat }.

(** [c.size]: both constructors set it to the number of characters of the
    text. *)
Definition size (c : column) : nat := List.length (p c).

(** [c.p[i]] *)
Definition at_ (c : column) (i : nat) : ascii := nth i (p c) NUL.

(** [column{"...", w}] *)
Definition column_of (s : string) (w : nat) : column :=
  mk_column (list_ascii_of_string s) w.

Module internal.

(** ** struct colstate *)

Record colstate := mk_colstate {
  cp : nat; (* index in the whole column text *)
  lp : nat  (* index in the currently emitted line *)
}.

Definition colstate_init : colstate := mk_colstate 0 0.

(** [colstate::end] *)
Definition end_ (st : colstate) (c : column) : bool := size c <=? cp st.

(** [colstate::consume]: the character read and the state after it *)
Definition consume (st : colstate) (c : column) : ascii * colstate :=
  if end_ st c then (NUL, st)
  else (at_ c (cp st), mk_colstate (S (cp st)) (lp st)).

(** [colstate::emit] *)
Definition emit (os : ostream) (st : colstate) (ch : ascii)
  : ostream * colstate :=
  (put os ch, mk_colstate (cp st) (S (lp st))).

(** [colstate::breakLine] *)
Definition breakLine (st : colstate) : colstate := mk_colstate (cp st) 0.

(** [isws] *)
Definition isws (ch : ascii) : bool :=
  Ascii.eqb ch SPACE || Ascii.eqb ch TAB.

(** The loop of [colstate::nextWordFits]:
    [for (i = cp; s[i] && l < colwidth; ++i, ++l) if (isws(s[i])) return true;
     return l < colwidth;]
    The fuel is [colwidth - l], which the loop decreases; at fuel 0 the
    condition [l < colwidth] is false and the loop is left. *)
Fixpoint nextWordFits_loop (fuel : nat) (c : column) (i l : nat) : bool :=
  match fuel with
  | 0 => l <? width c
  | S fuel' =>
      if negb (Ascii.eqb (at_ c i) NUL) && (l <? width c) then
        if isws (at_ c i) then true
        else nextWordFits_loop fuel' c (S i) (S l)
      else l <? width c
  end.

(** [colstate::nextWordFits] *)
Definition nextWordFits (st : colstate) (c : column) : bool :=
  nextWordFits_loop (width c - lp st) c (cp st) (lp st).

(** [colstate::linebreak] *)
Definition linebreak (st : colstate) (ch : ascii) (c : column) : bool :=
  Ascii.eqb ch LF || (isws ch && negb (nextWordFits st c)).

(** The loop of [switch_col]:
    [for (i = state.lp; i < colwidth; i += inc) os.put(fill);]
    with fuel [colwidth - i]. *)
Fixpoint switch_col_loop (fuel : nat) (os : ostream) (i colwidth inc : nat)
    (fill : ascii) : ostream :=
  match fuel with
  | 0 => os
  | S fuel' =>
      if i <? colwidth
      then switch_col_loop fuel' (put os fill) (i + inc) colwidth inc fill
      else os
  end.

(** [switch_col] *)
Definition switch_col (os : ostream) (st : colstate) (colwidth : nat)
    (fill : ascii) (sep : list ascii) : ostream :=
  let inc := if Ascii.eqb fill TAB then 8 else 1 in
  write (switch_col_loop (colwidth - lp st) os (lp st) colwidth inc fill) sep.

(** The loop of [emit_col]:
    [for (ch = consume(c); !!ch; ch = consume(c))
       if (!linebreak(ch, c)) emit(os, ch); else break;]
    Every turn consumes one character, so [size - cp + 1] turns reach the
    end of the text. *)
Fixpoint emit_col_loop (fuel : nat) (os : ostream) (st : colstate)
    (c : column) : ostream * colstate :=
  match fuel with
  | 0 => (os, st)
  | S fuel' =>
      let (ch, st1) := consume st c in
      if Ascii.eqb ch NUL then (os, st1)
      else if negb (linebreak st1 ch c) then
        let (os2, st2) := emit os st1 ch in
        emit_col_loop fuel' os2 st2 c
      else (os, st1)
  end.

(** [emit_col] *)
Definition emit_col (os : ostream) (st : colstate) (c : column)
  : ostream * colstate :=
  emit_col_loop (S (size c - cp st)) os st c.

(** [is_unconsumed] *)
Fixpoint is_unconsumed (state : list colstate) (c : list column) : bool :=
  match state, c with
  | st :: state', col :: c' =>
      if negb (end_ st col) then true else is_unconsumed state' c'
  | _, _ => false
  end.

End internal.

Import internal.

(** The inner loop of [tabulate], one output line without its terminator:
    [for (col = 0; col < N; ++col) {
       emit_col(os, state[col], c[col]);
       if ((col + 1) < N) switch_col(os, state[col], c[col].width, fill, sep);
       state[col].breakLine(); }] *)
Fixpoint emit_line (os : ostream) (sep : list ascii) (fill : ascii)
    (state : list colstate) (c : list column) : ostream * list colstate :=
  match state, c with
  | st :: state', col :: c' =>
      let (os1, st1) := emit_col os st col in
      let os2 :=
        match c' with
        | [] => os1
        | _ :: _ => switch_col os1 st1 (width col) fill sep
        end in
      let (os3, state3) := emit_line os2 sep fill state' c' in
      (os3, breakLine st1 :: state3)
  | _, _ => (os, [])
  end.

(** The outer loop of [tabulate]:
    [for (unconsumed = is_unconsumed(state, c); unconsumed; ...) {
       <inner loop>; os << '\n'; }]
    One unit of fuel is one output line. *)
Fixpoint tabulate_loop (fuel : nat) (os : ostream) (sep : list ascii)
    (fill : ascii) (state : list colstate) (c : list column)
  : option ostream :=
  if is_unconsumed state c then
    match fuel with
    | 0 => None
    | S fuel' =>
        let (os1, state1) := emit_line os sep fill state c in
        tabulate_loop fuel' (put os1 LF) sep fill state1 c
    end
  else Some os.

(** [array<colstate,N> state;] *)
Definition initial_state (c : list column) : list colstate :=
  map (fun _ => colstate_init) c.

(** The longest text of the columns. *)
Definition max_size (c : list column) : nat := list_max (map size c).

(** [tabulate(os, sep, fill, cols...)] *)
Definition tabulate (os : ostream) (sep : list ascii) (fill : ascii)
    (cols : list column) : option ostream :=
  tabulate_loop (max_size cols) os sep fill (initial_state cols) cols.

(** [tabulate(os, sep, cols...)] *)
Definition tabulate_sep (os : ostream) (sep : list ascii)
    (cols : list column) : option ostream :=
  tabulate os sep SPACE cols.

(** [tabulate(os, cols...)] *)
Definition tabulate_default (os : ostream) (cols : list column)
  : option ostream :=
  tabulate os [SPACE] SPACE cols.

End tabulator.

Import tabulator tabulator.internal.

(** ** The text seen as the list of characters still to be read

    The functions below restate the loops of the code on [skipn cp p], the
    part of the text that has not been consumed. *)

(** The scan of [nextWordFits] on the remaining text [rest], with the
    counter [l] and the column width [w]. *)
Fixpoint fits_scan (rest : list ascii) (w l : nat) : bool :=
  match rest with
  | [] => l <? w
  | ch :: rest' =>
      if negb (Ascii.eqb ch NUL) && (l <? w) then
        if isws ch then true else fits_scan rest' w (S l)
      else l <? w
  end.

(** Length of the run of characters at the head of [rest] that the scan of
    [nextWordFits] steps over: up to the next blank or NUL. *)
Fixpoint word_len (rest : list ascii) : nat :=
  match rest with
  | [] => 0
  | ch :: rest' =>
      if Ascii.eqb ch NUL || isws ch then 0 else S (word_len rest')
  end.

(** The characters at which [emit_col] can stop: NUL, newline and blanks. *)
Definition is_break (ch : ascii) : bool :=
  Ascii.eqb ch NUL || Ascii.eqb ch LF || isws ch.

(** Length of the run of characters at the head of [rest] that [emit_col]
    emits without asking: up to the next blank, newline or NUL. *)
Fixpoint first_word (rest : list ascii) : nat :=
  match rest with
  | [] => 0
  | ch :: rest' => if is_break ch then 0 else S (first_word rest')
  end.

(** The loop of [emit_col] on the remaining text: the segment it emits and
    the number of characters it consumes. *)
Fixpoint wrap_line (rest : list ascii) (w l : nat) : list ascii * nat :=
  match rest with
  | [] => ([], 0)
  | ch :: rest' =>
      if Ascii.eqb ch NUL then ([], 1)
      else if Ascii.eqb ch LF || (isws ch && negb (fits_scan rest' w l))
      then ([], 1)
      else let (seg, n) := wrap_line rest' w (S l) in (ch :: seg, S n)
  end.

(** The segment one call of [emit_col] writes from the state [st]. *)
Definition col_seg (st : colstate) (c : column) : list ascii :=
  fst (emit_col [] st c).

(** The state of a column after one pass of the inner loop of [tabulate]:
    [emit_col], then [breakLine]. *)
Definition col_next (st : colstate) (c : column) : colstate :=
  breakLine (snd (emit_col [] st c)).

Fixpoint next_states (state : list colstate) (c : list column)
  : list colstate :=
  match state, c with
  | st :: state', col :: c' => col_next st col :: next_states state' c'
  | _, _ => []
  end.

(** Number of fill characters the loop of [switch_col] writes from the line
    position [l] up to the width [w]. *)
Definition fill_count (fill : ascii) (l w : nat) : nat :=
  if Ascii.eqb fill TAB then (w - l + 7) / 8 else w - l.

(** What one pass of the inner loop of [tabulate] writes: for every column
    its segment, and for every column but the last the fill and the
    separator. *)
Fixpoint line_cells (sep : list ascii) (fill : ascii)
    (state : list colstate) (c : list column) : list ascii :=
  match state, c with
  | st :: state', col :: c' =>
      col_seg st col
      ++ match c' with
         | [] => []
         | _ :: _ =>
             repeat fill
               (fill_count fill (lp st + List.length (col_seg st col))
                  (width col))
             ++ sep
         end
      ++ line_cells sep fill state' c'
  | _, _ => []
  end.

(** The lines the outer loop of [tabulate] writes, one per turn, without
    their terminators. *)
Fixpoint tabulate_lines (fuel : nat) (sep : list ascii) (fill : ascii)
    (state : list colstate) (c : list column) : list (list ascii) :=
  if is_unconsumed state c then
    match fuel with
    | 0 => []
    | S fuel' =>
        let (os1, state1) := emit_line [] sep fill state c in
        os1 :: tabulate_lines fuel' sep fill state1 c
    end
  else [].

(** The lines of [tabulate(os, sep, fill, cols...)]. *)
Definition lines_of (sep : list ascii) (fill : ascii) (cols : list column)
  : list (list ascii) :=
  tabulate_lines (max_size cols) sep fill (initial_state cols) cols.

(** Number of lines a column needs from the state [st] on. *)
Fixpoint rounds_from (fuel : nat) (st : colstate) (c : column) : nat :=
  if end_ st c then 0
  else match fuel with
       | 0 => 0
       | S fuel' => S (rounds_from fuel' (col_next st c) c)
       end.

(** A column of the two arrays with its state: is it unfinished, and its
    pair after one turn of the outer loop. *)
Definition unfinished (sc : colstate * column) : bool :=
  negb (end_ (fst sc) (snd sc)).

Definition step_pair (sc : colstate * column) : colstate * column :=
  (col_next (fst sc) (snd sc), snd sc).

(** The lines [ls], each followed by the newline of [os << '\n']. *)
Definition terminated (ls : list (list ascii)) : list ascii :=
  flat_map (fun l => l ++ [LF]) ls.

(** The call of the documentation of [tabulate]. *)
Definition example_sep : list ascii := list_ascii_of_string " | ".
Definition example_col1 : column := column_of "abc def ghi" 6.
Definition example_col2 : column := column_of "123 4432 17 8989" 4.

(** ** The reference algorithm of the specification (section 4.2)

    [word_fits]: scan from [consume_pos] with a counter [l] that starts at
    [line_pos]; true at a blank found while [l < width], true when the text
    is exhausted with [l < width], false otherwise.  [would_break]: [ch] is
    a line terminator, or [ch] is blank and the next word does not fit. *)

Fixpoint word_fits_from (rest : list ascii) (w l : nat) : bool :=
  match rest with
  | [] => l <? w
  | ch :: rest' =>
      if l <? w then
        if isws ch then true else word_fits_from rest' w (S l)
      else false
  end.

Definition word_fits (text : list ascii) (w consume_pos line_pos : nat)
  : bool :=
  word_fits_from (skipn consume_pos text) w line_pos.

Definition would_break (text : list ascii) (w consume_pos line_pos : nat)
    (ch : ascii) : bool :=
  Ascii.eqb ch LF
  || (isws ch && negb (word_fits text w consume_pos line_pos)).

(** ** [size_t]

    The index of the fill loop of [switch_col] is the one counter of the
    code that can wrap around.  The definitions below follow that loop on
    a 64-bit [size_t]; [fill_in_range] says when it cannot wrap, and then
    [switch_col], [emit_line] and [tabulate] above are what it computes. *)

(** [SIZE_MAX] of a 64-bit [std::size_t]. *)
Definition SIZE_MAX : N := 2 ^ 64 - 1.

(** [a + b] on [size_t]: the sum wraps around. *)
Definition size_t_add (a b : N) : N := ((a + b) mod (SIZE_MAX + 1))%N.

(** The loop of [switch_col] with its index a [size_t]:
    [for (i = state.lp; i < colwidth; i += inc) os.put(fill);]
    The loop need not end: [None] when the fuel runs out. *)
Fixpoint switch_col_loop_size_t (fuel : nat) (os : ostream)
    (i colwidth inc : N) (fill : ascii) : option ostream :=
  match fuel with
  | 0 => None
  | S fuel' =>
      if (i <? colwidth)%N
      then switch_col_loop_size_t fuel' (put os fill) (size_t_add i inc)
             colwidth inc fill
      else Some os
  end.

(** [switch_col] on that loop. *)
Definition switch_col_size_t (fuel : nat) (os : ostream) (st : colstate)
    (colwidth : nat) (fill : ascii) (sep : list ascii) : option ostream :=
  let inc := (if Ascii.eqb fill TAB then 8 else 1)%N in
  match switch_col_loop_size_t fuel os (N.of_nat (lp st))
          (N.of_nat colwidth) inc fill with
  | Some os1 => Some (write os1 sep)
  | None => None
  end.

(** The inner loop of [tabulate] on [switch_col_size_t]. *)
Fixpoint emit_line_size_t (fuel : nat) (os : ostream) (sep : list ascii)
    (fill : ascii) (state : list colstate) (c : list column)
  : option (ostream * list colstate) :=
  match state, c with
  | st :: state', col :: c' =>
      let (os1, st1) := emit_col os st col in
      match
        match c' with
        | [] => Some os1
        | _ :: _ => switch_col_size_t fuel os1 st1 (width col) fill sep
        end
      with
      | None => None
      | Some os2 =>
          match emit_line_size_t fuel os2 sep fill state' c' with
          | None => None
          | Some (os3, state3) => Some (os3, breakLine st1 :: state3)
          end
      end
  | _, _ => Some (os, [])
  end.

(** The outer loop of [tabulate] on [emit_line_size_t]: [fuel] bounds the
    turns of the outer loop, [ffuel] those of every fill loop. *)
Fixpoint tabulate_loop_size_t (fuel ffuel : nat) (os : ostream)
    (sep : list ascii) (fill : ascii) (state : list colstate)
    (c : list column) : option ostream :=
  if is_unconsumed state c then
    match fuel with
    | 0 => None
    | S fuel' =>
        match emit_line_size_t ffuel os sep fill state c with
        | None => None
        | Some (os1, state1) =>
            tabulate_loop_size_t fuel' ffuel (put os1 LF) sep fill state1 c
        end
    end
  else Some os.

(** [tabulate(os, sep, fill, cols...)] with the fill loops on [size_t]. *)
Definition tabulate_size_t (fuel : nat) (os : ostream) (sep : list ascii)
    (fill : ascii) (cols : list column) : option ostream :=
  tabulate_loop_size_t fuel fuel os sep fill (initial_state cols) cols.

(** The widths for which the index of the fill loop does not wrap: a
    [size_t] value, and at most [SIZE_MAX - 7] when the fill is a tab. *)
Definition fill_in_range (fill : ascii) (w : nat) : Prop :=
  (N.of_nat w + (if Ascii.eqb fill TAB then 7 else 0) <= SIZE_MAX)%N.

(** A column width of [SIZE_MAX]. *)
Definition huge_width : nat := N.to_nat SIZE_MAX.

(** ** Word wrap of a text

    The lines of a text wrapped at the width [w], by the loop of
    [emit_col] on the remaining text, each line from line position 0. *)
Fixpoint wrap_lines (fuel : nat) (rest : list ascii) (w : nat)
  : list (list ascii) :=
  match rest with
  | [] => []
  | _ :: _ =>
      match fuel with
      | 0 => []
      | S fuel' =>
          let (seg, n) := wrap_line rest w 0 in
          seg :: wrap_lines fuel' (skipn n rest) w
      end
  end.

Definition wrapped (text : list ascii) (w : nat) : list (list ascii) :=
  wrap_lines (List.length text) text w.

(** ** The constructors of [column] *)

(** [std::strlen]: the number of characters before the first NUL of the
    memory that starts at [s]. *)
Fixpoint strlen (s : list ascii) : nat :=
  match s with
  | [] => 0
  | ch :: s' => if Ascii.eqb ch NUL then 0 else S (strlen s')
  end.

(** [column(const char *s, std::size_t w) : p{s}, size{std::strlen(s)},
    width{w}]: the text is the memory at [s] up to its terminator. *)
Definition column_cstr (s : list ascii) (w : nat) : column :=
  mk_column (firstn (strlen s) s) w.

(** [column(const std::string& s, std::size_t w) : p{s.c_str()},
    size{s.size()}, width{w}]: the text is all of [s]. *)
Definition column_string (s : list ascii) (w : nat) : column :=
  mk_column s w.

(** ** Columns side by side *)

(** The segment a column writes in turn [k] of the outer loop, counted from
    the state [st]. *)
Definition seg_at (k : nat) (st : colstate) (c : column) : list ascii :=
  col_seg (Nat.iter k (fun s => col_next s c) st) c.

Fixpoint segs_at (k : nat) (state : list colstate) (c : list column)
  : list (list ascii) :=
  match state, c with
  | st :: state', col :: c' => seg_at k st col :: segs_at k state' c'
  | _, _ => []
  end.

(** The segments [segs] of one line, one per column, joined as the inner
    loop of [tabulate] writes them: fill and separator after every column
    but the last. *)
Fixpoint join_cells (sep : list ascii) (fill : ascii)
    (segs : list (list ascii)) (cols : list column) : list ascii :=
  match segs, cols with
  | seg :: segs', col :: cols' =>
      seg
      ++ match cols' with
         | [] => []
         | _ :: _ =>
             repeat fill (fill_count fill (List.length seg) (width col))
             ++ sep
         end
      ++ join_cells sep fill segs' cols'
  | _, _ => []
  end.

(** The characters of [l] that are neither blank, nor newline, nor NUL. *)
Definition word_chars (l : list ascii) : list ascii :=
  filter (fun ch => negb (is_break ch)) l.

(** [subseq s l]: the characters of [s] are characters of [l], in the
    order of [l], each taken at most once. *)
Inductive subseq : list ascii -> list ascii -> Prop :=
| subseq_nil : forall l, subseq [] l
| subseq_take : forall a s l, subseq s l -> subseq (a :: s) (a :: l)
| subseq_skip : forall a s l, subseq s l -> subseq s (a :: l).

(** ** Basic facts *)

Lemma skipn_nth_cons (A : Type) (d : A) (l : list A) (i : nat) :
  i < List.length l -> skipn i l = nth i l d :: skipn (S i) l.
Proof.
  revert i; induction l as [|a l IH]; intros [|i] H; simpl in *;
    try lia; auto.
  apply IH; lia.
Qed.

Lemma at_skipn (c : column) (i : nat) :
  i < size c -> skipn i (p c) = at_ c i :: skipn (S i) (p c).
Proof. apply skipn_nth_cons. Qed.

Lemma at_beyond (c : column) (i : nat) : size c <= i -> at_ c i = NUL.
Proof. intros H; apply nth_overflow; exact H. Qed.

Lemma end_false_iff (st : colstate) (c : column) :
  end_ st c = false <-> cp st < size c.
Proof. unfold end_. apply Nat.leb_gt. Qed.

Lemma end_true_iff (st : colstate) (c : column) :
  end_ st c = true <-> size c <= cp st.
Proof. unfold end_. apply Nat.leb_le. Qed.

Lemma Forall_skipn_tail (A : Type) (P : A -> Prop) (l : list A) :
  Forall P l -> forall n, Forall P (skipn n l).
Proof.
  induction 1 as [|a l Ha Hl IH]; intros [|n]; simpl; auto.
Qed.

Lemma list_max_zero (A : Type) (g : A -> nat) (xs : list A) :
  (forall x, In x xs -> g x = 0) -> list_max (map g xs) = 0.
Proof.
  induction xs as [|x xs IH]; intros H; simpl; auto.
  rewrite H by (left; reflexivity). rewrite IH; auto.
  intros y Hy. apply H. right. exact Hy.
Qed.

Lemma list_max_succ (A : Type) (g h : A -> nat) (e : A -> bool)
    (xs : list A) :
  (forall x, e x = true -> g x = S (h x)) ->
  (forall x, e x = false -> g x = 0 /\ h x = 0) ->
  existsb e xs = true ->
  list_max (map g xs) = S (list_max (map h xs)).
Proof.
  intros Ht Hf. induction xs as [|x xs IH]; simpl; [discriminate|].
  intros H. destruct (e x) eqn:Ex; simpl in H.
  - rewrite (Ht x Ex). destruct (existsb e xs) eqn:Exs.
    + rewrite IH by reflexivity. lia.
    + assert (Hall : forall y, In y xs -> e y = false).
      { intros y Hy. destruct (e y) eqn:Ey; auto.
        assert (existsb e xs = true) by (apply existsb_exists; eauto).
        congruence. }
      rewrite !list_max_zero; try lia.
      * intros y Hy. apply Hf. auto.
      * intros y Hy. apply Hf. auto.
  - destruct (Hf x Ex) as [-> ->]. rewrite IH by exact H. lia.
Qed.

Lemma list_max_map_le (A : Type) (g h : A -> nat) (xs : list A) :
  (forall x, In x xs -> g x <= h x) ->
  list_max (map g xs) <= list_max (map h xs).
Proof.
  induction xs as [|x xs IH]; intros H; simpl; auto.
  assert (g x <= h x) by (apply H; left; reflexivity).
  assert (list_max (map g xs) <= list_max (map h xs)).
  { apply IH. intros y Hy. apply H. right. exact Hy. }
  lia.
Qed.

Lemma terminated_map (f : list ascii -> list ascii) (ls : list (list ascii)) :
  terminated (map f ls) = flat_map (fun l => f l ++ [LF]) ls.
Proof.
  unfold terminated. induction ls as [|l ls IH]; simpl; auto.
  rewrite IH. reflexivity.
Qed.

(** ** The scan of [nextWordFits] *)

Lemma nextWordFits_loop_scan (fuel : nat) (c : column) :
  forall i l, width c - l <= fuel ->
  nextWordFits_loop fuel c i l = fits_scan (skipn i (p c)) (width c) l.
Proof.
  induction fuel as [|fuel IH]; intros i l Hf; simpl.
  - assert (Hl : (l <? width c) = false) by (apply Nat.ltb_ge; lia).
    destruct (skipn i (p c)); simpl; rewrite Hl; auto.
    rewrite andb_false_r; reflexivity.
  - destruct (Nat.lt_ge_cases i (size c)) as [Hi|Hi].
    + rewrite (at_skipn c i Hi); simpl.
      destruct (negb (Ascii.eqb (at_ c i) NUL) && (l <? width c)) eqn:E; auto.
      destruct (isws (at_ c i)); auto.
      apply IH. lia.
    + rewrite (at_beyond c i Hi), skipn_all2 by exact Hi. reflexivity.
Qed.

Lemma nextWordFits_scan (st : colstate) (c : column) :
  nextWordFits st c = fits_scan (skipn (cp st) (p c)) (width c) (lp st).
Proof. apply nextWordFits_loop_scan; lia. Qed.

(** The next word fits exactly when it ends before the width is reached. *)
Lemma fits_scan_word_len (rest : list ascii) (w : nat) :
  forall l, fits_scan rest w l = (l + word_len rest <? w).
Proof.
  induction rest as [|ch rest IH]; intros l; simpl.
  - rewrite Nat.add_0_r; reflexivity.
  - destruct (Ascii.eqb ch NUL); simpl.
    + rewrite Nat.add_0_r; reflexivity.
    + destruct (isws ch); simpl.
      * rewrite Nat.add_0_r. destruct (l <? w); reflexivity.
      * rewrite IH. destruct (l <? w) eqn:E.
        -- f_equal; lia.
        -- symmetry. apply Nat.ltb_ge. apply Nat.ltb_ge in E. lia.
Qed.

Lemma fits_scan_word_fits (rest : list ascii) (w : nat) :
  Forall (fun a => a <> NUL) rest ->
  forall l, fits_scan rest w l = word_fits_from rest w l.
Proof.
  induction 1 as [|ch rest Hch Hrest IH]; intros l; simpl; auto.
  apply Ascii.eqb_neq in Hch. rewrite Hch. simpl.
  destruct (l <? w); auto. destruct (isws ch); auto.
Qed.

(** ** The loop of [emit_col] on the remaining text *)

Ltac split_wrap :=
  match goal with
  | |- context [wrap_line ?r ?w ?l] =>
      let seg := fresh "seg" in
      let n := fresh "n" in
      destruct (wrap_line r w l) as [seg n]; simpl in *
  end.

Lemma wrap_line_consumed (rest : list ascii) (w : nat) :
  forall l, snd (wrap_line rest w l) <= List.length rest
            /\ (rest <> [] -> 1 <= snd (wrap_line rest w l)).
Proof.
  induction rest as [|ch rest IH]; intros l; simpl.
  - split; [lia | congruence].
  - destruct (Ascii.eqb ch NUL); simpl; [split; lia|].
    destruct (Ascii.eqb ch LF || isws ch && negb (fits_scan rest w l));
      simpl; [split; lia|].
    specialize (IH (S l)).
    split_wrap. split; lia.
Qed.

(** Once a blank has been accepted, the line stays within the width. *)
Lemma wrap_line_within (rest : list ascii) (w : nat) :
  forall l, l + word_len rest <= w ->
  l + List.length (fst (wrap_line rest w l)) <= w.
Proof.
  induction rest as [|ch rest IH]; intros l H; simpl in *; [lia|].
  destruct (Ascii.eqb ch NUL) eqn:En; simpl in *; [lia|].
  destruct (Ascii.eqb ch LF) eqn:El; simpl in *.
  { destruct (isws ch); simpl in *; lia. }
  destruct (isws ch) eqn:Ew; simpl in *.
  - rewrite fits_scan_word_len.
    destruct (Nat.ltb_spec (l + word_len rest) w) as [Hfit|Hfit]; simpl.
    + specialize (IH (S l)).
      split_wrap. lia.
    + lia.
  - specialize (IH (S l)).
    split_wrap. lia.
Qed.

(** A segment is within the width, or it is exactly the word at its start
    and that word is longer than what remains of the width. *)
Lemma wrap_line_bound (rest : list ascii) (w : nat) :
  forall l,
  l + List.length (fst (wrap_line rest w l)) <= w
  \/ (w < l + first_word rest
      /\ fst (wrap_line rest w l) = firstn (first_word rest) rest).
Proof.
  induction rest as [|ch rest IH]; intros l; simpl.
  - destruct (Nat.le_gt_cases l w); [left; lia | right; split; [lia | reflexivity]].
  - unfold is_break.
    destruct (Ascii.eqb ch NUL) eqn:En; simpl.
    { destruct (Nat.le_gt_cases l w); [left; lia | right; split; [lia | reflexivity]]. }
    destruct (Ascii.eqb ch LF) eqn:El; simpl.
    { destruct (Nat.le_gt_cases l w); [left; lia | right; split; [lia | reflexivity]]. }
    destruct (isws ch) eqn:Ew; simpl.
    + rewrite fits_scan_word_len.
      destruct (Nat.ltb_spec (l + word_len rest) w) as [Hfit|Hfit]; simpl.
      * left. pose proof (wrap_line_within rest w (S l)) as Hin.
        split_wrap. lia.
      * destruct (Nat.le_gt_cases l w); [left; lia | right; split; [lia | reflexivity]].
    + specialize (IH (S l)).
      split_wrap.
      destruct IH as [IH|[IH1 IH2]]; [left; lia|].
      right. split; [lia|]. f_equal. exact IH2.
Qed.

Lemma first_word_le (rest : list ascii) : first_word rest <= List.length rest.
Proof.
  induction rest as [|ch rest IH]; simpl; auto.
  destruct (is_break ch); lia.
Qed.

(** [emit_col] emits the remaining text up to a character it drops, which
    is a blank, a newline or a NUL, or up to the end of the text; the word
    at the cursor is always part of the segment. *)
Lemma wrap_line_split (rest : list ascii) (w : nat) :
  forall l,
  first_word rest <= List.length (fst (wrap_line rest w l))
  /\ ((rest = fst (wrap_line rest w l)
       /\ snd (wrap_line rest w l) = List.length rest)
      \/ exists d,
           rest = fst (wrap_line rest w l)
                  ++ d :: skipn (snd (wrap_line rest w l)) rest
           /\ is_break d = true
           /\ snd (wrap_line rest w l)
              = S (List.length (fst (wrap_line rest w l)))).
Proof.
  induction rest as [|ch rest IH]; intros l; simpl.
  - split; auto.
  - unfold is_break.
    destruct (Ascii.eqb ch NUL) eqn:En; simpl.
    { split; auto. right. exists ch. unfold is_break. rewrite En. auto. }
    destruct (Ascii.eqb ch LF) eqn:El; simpl.
    { split; auto. right. exists ch. unfold is_break. rewrite En, El. auto. }
    destruct (isws ch && negb (fits_scan rest w l)) eqn:Eb; simpl.
    { apply andb_true_iff in Eb. destruct Eb as [Ew _]. rewrite Ew.
      split; auto. right. exists ch. unfold is_break.
      rewrite En, El, Ew. auto. }
    specialize (IH (S l)).
    split_wrap.
    destruct IH as [Hw IH]. split.
    { destruct (isws ch); lia. }
    destruct IH as [[H1 H2]|[d [H1 [H2 H3]]]].
    + left. split; congruence.
    + right. exists d. repeat split; auto. congruence.
Qed.

(** No newline and no NUL is ever written from the text. *)
Lemma wrap_line_no_break (rest : list ascii) (w : nat) :
  forall l ch, In ch (fst (wrap_line rest w l)) ->
  ch <> LF /\ ch <> NUL.
Proof.
  induction rest as [|a rest IH]; intros l ch; simpl; [tauto|].
  destruct (Ascii.eqb a NUL) eqn:En; simpl; [tauto|].
  destruct (Ascii.eqb a LF) eqn:El; simpl; [tauto|].
  destruct (isws a && negb (fits_scan rest w l)); simpl; [tauto|].
  specialize (IH (S l) ch).
  split_wrap.
  intros [<-|H]; auto.
  apply Ascii.eqb_neq in En, El. auto.
Qed.

(** ** [emit_col] *)

Lemma emit_col_loop_wrap (fuel : nat) (c : column) :
  forall os st, size c - cp st < fuel ->
  emit_col_loop fuel os st c =
  (os ++ fst (wrap_line (skipn (cp st) (p c)) (width c) (lp st)),
   mk_colstate (cp st + snd (wrap_line (skipn (cp st) (p c)) (width c) (lp st)))
               (lp st + List.length
                  (fst (wrap_line (skipn (cp st) (p c)) (width c) (lp st))))).
Proof.
  induction fuel as [|fuel IH]; intros os [i l] Hf; simpl in *; [lia|].
  unfold consume, end_; simpl.
  destruct (Nat.leb_spec (size c) i) as [Hi|Hi].
  - rewrite skipn_all2 by exact Hi. simpl.
    rewrite app_nil_r, !Nat.add_0_r. reflexivity.
  - rewrite (at_skipn c i Hi).
    specialize (IH (put os (at_ c i)) (mk_colstate (S i) (S l))).
    unfold linebreak. rewrite nextWordFits_scan. simpl cp in *. simpl lp in *.
    remember (skipn (S i) (p c)) as rest' eqn:Er. simpl.
    destruct (Ascii.eqb (at_ c i) NUL); simpl.
    + rewrite app_nil_r, Nat.add_0_r, Nat.add_1_r. reflexivity.
    + destruct (Ascii.eqb (at_ c i) LF
                || isws (at_ c i) && negb (fits_scan rest' (width c) l)); simpl.
      * rewrite app_nil_r, Nat.add_0_r, Nat.add_1_r. reflexivity.
      * rewrite IH by lia.
        destruct (wrap_line rest' (width c) (S l)) as [seg n].
        simpl. unfold put. rewrite <- app_assoc. simpl.
        f_equal. f_equal; lia.
Qed.

(** [emit_col] on the remaining text. *)
Lemma emit_col_wrap (os : ostream) (st : colstate) (c : column) :
  emit_col os st c =
  (os ++ fst (wrap_line (skipn (cp st) (p c)) (width c) (lp st)),
   mk_colstate (cp st + snd (wrap_line (skipn (cp st) (p c)) (width c) (lp st)))
               (lp st + List.length
                  (fst (wrap_line (skipn (cp st) (p c)) (width c) (lp st))))).
Proof. apply emit_col_loop_wrap; lia. Qed.

(** More fuel than [emit_col] gives its loop changes nothing. *)
Lemma emit_col_loop_enough (fuel : nat) (os : ostream) (st : colstate)
    (c : column) :
  size c - cp st < fuel -> emit_col_loop fuel os st c = emit_col os st c.
Proof.
  intros H. rewrite emit_col_wrap. apply emit_col_loop_wrap; exact H.
Qed.

Lemma col_seg_wrap (st : colstate) (c : column) :
  col_seg st c = fst (wrap_line (skipn (cp st) (p c)) (width c) (lp st)).
Proof. unfold col_seg. rewrite emit_col_wrap. reflexivity. Qed.

Lemma emit_col_app (os : ostream) (st : colstate) (c : column) :
  emit_col os st c = (os ++ col_seg st c, snd (emit_col [] st c)).
Proof. rewrite col_seg_wrap, !emit_col_wrap. reflexivity. Qed.

Lemma emit_col_lp (os : ostream) (st : colstate) (c : column) :
  lp (snd (emit_col os st c)) = lp st + List.length (col_seg st c).
Proof. rewrite col_seg_wrap, emit_col_wrap. reflexivity. Qed.

Lemma emit_col_cp (os : ostream) (st : colstate) (c : column) :
  cp (snd (emit_col os st c)) =
  cp st + snd (wrap_line (skipn (cp st) (p c)) (width c) (lp st)).
Proof. rewrite emit_col_wrap. reflexivity. Qed.

(** An exhausted column: [emit_col] writes nothing and keeps the state. *)
Lemma emit_col_end (os : ostream) (st : colstate) (c : column) :
  end_ st c = true -> emit_col os st c = (os, st).
Proof.
  intros H. apply end_true_iff in H. rewrite emit_col_wrap.
  rewrite skipn_all2 by exact H. simpl.
  rewrite app_nil_r, !Nat.add_0_r. destruct st; reflexivity.
Qed.

(** A column that is not exhausted: [emit_col] consumes at least one
    character, and never reads past the end of the text. *)
Lemma emit_col_advances (os : ostream) (st : colstate) (c : column) :
  end_ st c = false ->
  cp st < cp (snd (emit_col os st c)) <= size c.
Proof.
  intros H. apply end_false_iff in H. rewrite emit_col_cp.
  destruct (wrap_line_consumed (skipn (cp st) (p c)) (width c) (lp st))
    as [Hle Hge].
  rewrite length_skipn in Hle. fold (size c) in Hle.
  assert (skipn (cp st) (p c) <> []).
  { rewrite (at_skipn c (cp st) H). discriminate. }
  specialize (Hge H0). lia.
Qed.

Lemma col_seg_end (st : colstate) (c : column) :
  end_ st c = true -> col_seg st c = [].
Proof.
  intros H. unfold col_seg. rewrite emit_col_end by exact H. reflexivity.
Qed.

Lemma col_seg_no_newline (st : colstate) (c : column) :
  ~ In LF (col_seg st c).
Proof.
  rewrite col_seg_wrap. intros H.
  apply wrap_line_no_break in H. destruct H as [H _]. congruence.
Qed.

(** ** One column in one turn of the outer loop *)

Lemma col_next_cp (st : colstate) (c : column) :
  cp (col_next st c) = cp (snd (emit_col [] st c)).
Proof. reflexivity. Qed.

Lemma col_next_lp (st : colstate) (c : column) : lp (col_next st c) = 0.
Proof. reflexivity. Qed.

Lemma col_next_end (st : colstate) (c : column) :
  end_ st c = true -> end_ (col_next st c) c = true.
Proof.
  intros H. unfold col_next. rewrite emit_col_end by exact H. exact H.
Qed.

Lemma col_next_end_eq (st : colstate) (c : column) :
  end_ st c = true -> col_next st c = breakLine st.
Proof.
  intros H. unfold col_next. rewrite emit_col_end by exact H. reflexivity.
Qed.

Lemma col_next_advances (st : colstate) (c : column) :
  end_ st c = false -> cp st < cp (col_next st c) <= size c.
Proof. intros H. exact (emit_col_advances [] st c H). Qed.

(** A call of [emit_col] on a column that is not exhausted emits a
    character, or consumes exactly the character at the cursor, which is a
    blank, a newline or a NUL. *)
Lemma emit_col_emits_or_drops (st : colstate) (c : column) :
  end_ st c = false ->
  1 <= List.length (col_seg st c)
  \/ (cp (col_next st c) = S (cp st) /\ is_break (at_ c (cp st)) = true).
Proof.
  intros H. apply end_false_iff in H.
  rewrite col_next_cp, emit_col_cp, col_seg_wrap.
  destruct (wrap_line_split (skipn (cp st) (p c)) (width c) (lp st))
    as [_ Hs].
  rewrite (at_skipn c (cp st) H) in Hs.
  rewrite (at_skipn c (cp st) H).
  destruct (fst (wrap_line (at_ c (cp st) :: skipn (S (cp st)) (p c))
                   (width c) (lp st))) as [|a seg] eqn:E.
  - right. destruct Hs as [[Hs _]|[d [Hs [Hd Hn]]]]; [discriminate|].
    simpl in Hs. injection Hs as Hs _. subst d. rewrite Hn. simpl.
    split; [lia | exact Hd].
  - left. simpl. lia.
Qed.

(** ** Counting the lines of one column *)

Lemma rounds_from_end (fuel : nat) (st : colstate) (c : column) :
  end_ st c = true -> rounds_from fuel st c = 0.
Proof. intros H. destruct fuel; simpl; rewrite H; reflexivity. Qed.

Lemma rounds_from_succ (fuel : nat) (st : colstate) (c : column) :
  end_ st c = false ->
  rounds_from (S fuel) st c = S (rounds_from fuel (col_next st c) c).
Proof. intros H. simpl. rewrite H. reflexivity. Qed.

Lemma rounds_from_enough (fuel : nat) (c : column) :
  forall fuel' st,
  size c - cp st <= fuel -> size c - cp st <= fuel' ->
  rounds_from fuel st c = rounds_from fuel' st c.
Proof.
  induction fuel as [|fuel IH]; intros fuel' st H H'.
  - rewrite !rounds_from_end; auto; apply end_true_iff; lia.
  - destruct (end_ st c) eqn:E.
    + rewrite !rounds_from_end; auto.
    + pose proof (col_next_advances st c E) as Hadv.
      apply end_false_iff in E.
      destruct fuel' as [|fuel']; [lia|].
      rewrite !rounds_from_succ by (apply end_false_iff; exact E).
      f_equal. apply IH; lia.
Qed.

Lemma rounds_from_le (fuel : nat) (c : column) :
  forall st, rounds_from fuel st c <= size c - cp st.
Proof.
  induction fuel as [|fuel IH]; intros st; simpl.
  - destruct (end_ st c); lia.
  - destruct (end_ st c) eqn:E; [lia|].
    pose proof (col_next_advances st c E) as Hadv.
    specialize (IH (col_next st c)). lia.
Qed.

(** ** The loop of [switch_col] *)

Lemma switch_col_loop_count (fuel : nat) (w inc : nat) (fill : ascii) :
  0 < inc ->
  forall os i, w - i <= fuel ->
  switch_col_loop fuel os i w inc fill
  = os ++ repeat fill ((w - i + (inc - 1)) / inc).
Proof.
  intros Hinc. induction fuel as [|fuel IH]; intros os i Hf; simpl.
  - replace (w - i) with 0 by lia. simpl.
    rewrite Nat.div_small by lia. simpl. rewrite app_nil_r. reflexivity.
  - destruct (Nat.ltb_spec i w) as [Hi|Hi].
    + rewrite IH by lia. unfold put. rewrite <- app_assoc. simpl.
      f_equal.
      replace (w - i + (inc - 1)) with ((w - i - 1) + 1 * inc) by lia.
      rewrite Nat.div_add by lia. rewrite Nat.add_1_r. simpl. f_equal.
      destruct (Nat.le_gt_cases (i + inc) w) as [Hc|Hc].
      * f_equal. f_equal. lia.
      * replace (w - (i + inc)) with 0 by lia. simpl.
        rewrite !Nat.div_small by lia. reflexivity.
    + replace (w - i) with 0 by lia. simpl.
      rewrite Nat.div_small by lia. simpl. rewrite app_nil_r. reflexivity.
Qed.

Lemma switch_col_fill (os : ostream) (st : colstate) (w : nat)
    (fill : ascii) (sep : list ascii) :
  switch_col os st w fill sep
  = os ++ repeat fill (fill_count fill (lp st) w) ++ sep.
Proof.
  unfold switch_col, fill_count, write.
  destruct (Ascii.eqb fill TAB).
  - rewrite switch_col_loop_count by lia. rewrite <- app_assoc. reflexivity.
  - rewrite switch_col_loop_count by lia. rewrite <- app_assoc.
    change (1 - 1) with 0. rewrite Nat.add_0_r, Nat.div_1_r. reflexivity.
Qed.

Lemma fill_count_tab (l w : nat) :
  (w <= l -> fill_count TAB l w = 0)
  /\ (l < w -> w <= l + 8 * fill_count TAB l w < w + 8).
Proof.
  unfold fill_count. change (Ascii.eqb TAB TAB) with true. cbv iota.
  pose proof (Nat.div_mod_eq (w - l + 7) 8) as Hd.
  pose proof (Nat.mod_upper_bound (w - l + 7) 8) as Hm.
  split; intros H.
  - replace (w - l) with 0 by lia. reflexivity.
  - lia.
Qed.

(** ** The two arrays walked in lock-step *)

Lemma is_unconsumed_combine (state : list colstate) :
  forall c, is_unconsumed state c = existsb unfinished (combine state c).
Proof.
  induction state as [|st state IH]; intros [|col c]; simpl; auto.
  unfold unfinished at 1; simpl.
  destruct (end_ st col); simpl; auto.
Qed.

Lemma combine_next_states (state : list colstate) :
  forall c, combine (next_states state c) c = map step_pair (combine state c).
Proof.
  induction state as [|st state IH]; intros [|col c]; simpl; auto.
  rewrite IH. reflexivity.
Qed.

Lemma combine_initial_state (cols : list column) :
  combine (initial_state cols) cols = map (fun c => (colstate_init, c)) cols.
Proof.
  unfold initial_state. induction cols as [|c cols IH]; simpl; auto.
  rewrite IH. reflexivity.
Qed.

Lemma nth_error_next_states (state : list colstate) :
  forall (c : list column) (i : nat) (st : colstate) (col : column),
  nth_error state i = Some st -> nth_error c i = Some col ->
  nth_error (next_states state c) i = Some (col_next st col).
Proof.
  induction state as [|st0 state IH]; intros [|col0 c] [|i] st col Hs Hc;
    simpl in *; try discriminate.
  - congruence.
  - apply IH; assumption.
Qed.

(** Every turn of the outer loop starts all columns at [lp = 0]. *)
Lemma initial_state_lp (cols : list column) :
  Forall (fun st => lp st = 0) (initial_state cols).
Proof.
  unfold initial_state. induction cols; simpl; constructor; auto.
Qed.

Lemma next_states_lp (state : list colstate) :
  forall c, Forall (fun st => lp st = 0) (next_states state c).
Proof.
  induction state as [|st state IH]; intros [|col c]; simpl;
    constructor; auto.
Qed.

Lemma next_states_bound (fuel : nat) (state : list colstate)
    (c : list column) :
  Forall (fun sc => size (snd sc) - cp (fst sc) <= S fuel) (combine state c) ->
  Forall (fun sc => size (snd sc) - cp (fst sc) <= fuel)
    (combine (next_states state c) c).
Proof.
  intros Hb. rewrite combine_next_states. apply Forall_map.
  rewrite Forall_forall in *. intros [st col] Hin.
  specialize (Hb _ Hin). unfold step_pair. cbn [fst snd] in *.
  destruct (end_ st col) eqn:E.
  - apply col_next_end in E. apply end_true_iff in E. lia.
  - pose proof (col_next_advances st col E). lia.
Qed.

Lemma bound_zero_consumed (state : list colstate) (c : list column) :
  Forall (fun sc => size (snd sc) - cp (fst sc) <= 0) (combine state c) ->
  is_unconsumed state c = false.
Proof.
  intros Hb. rewrite is_unconsumed_combine.
  destruct (existsb unfinished (combine state c)) eqn:E; auto.
  apply existsb_exists in E. destruct E as [sc [Hin Hsc]].
  rewrite Forall_forall in Hb. specialize (Hb sc Hin).
  unfold unfinished in Hsc. apply negb_true_iff, end_false_iff in Hsc. lia.
Qed.

Lemma size_le_max_size (cols : list column) (c : column) :
  In c cols -> size c <= max_size cols.
Proof.
  intros H. unfold max_size.
  assert (Hall := proj1 (list_max_le (map size cols) (list_max (map size cols)))
                    (Nat.le_refl _)).
  rewrite Forall_forall in Hall. apply Hall. apply in_map. exact H.
Qed.

Lemma initial_state_bound (cols : list column) (fuel : nat) :
  max_size cols <= fuel ->
  Forall (fun sc => size (snd sc) - cp (fst sc) <= fuel)
    (combine (initial_state cols) cols).
Proof.
  intros H. rewrite combine_initial_state. apply Forall_map.
  apply Forall_forall. intros c Hc. simpl.
  pose proof (size_le_max_size cols c Hc). lia.
Qed.

(** ** The loops of [tabulate], for a separator and a fill character *)

Section Lines.

Variable sep : list ascii.
Variable fill : ascii.

Lemma emit_line_cells
    (state : list colstate) :
  forall (c : list column) (os : ostream),
  emit_line os sep fill state c
  = (os ++ line_cells sep fill state c, next_states state c).
Proof.
  induction state as [|st state IH]; intros [|col c] os; simpl;
    try (rewrite app_nil_r; reflexivity).
  rewrite emit_col_app.
  assert (Hlp := emit_col_lp [] st col).
  destruct (emit_col [] st col) as [os1 st1] eqn:E. simpl in *.
  rewrite IH. unfold col_next. rewrite E. simpl.
  f_equal. destruct c as [|col2 c].
  - rewrite <- !app_assoc. reflexivity.
  - rewrite switch_col_fill, Hlp. rewrite <- !app_assoc. reflexivity.
Qed.

Lemma emit_line_inner (os : ostream)
    (st : colstate) (col col2 : column) (state : list colstate)
    (c : list column) :
  emit_line os sep fill (st :: state) (col :: col2 :: c)
  = (let (os1, st1) := emit_col os st col in
     let (os3, state3) :=
       emit_line
         (os1 ++ repeat fill (fill_count fill (lp st1) (width col)) ++ sep)
         sep fill state (col2 :: c) in
     (os3, breakLine st1 :: state3)).
Proof.
  cbn [emit_line]. destruct (emit_col os st col) as [os1 st1].
  rewrite switch_col_fill. reflexivity.
Qed.

Lemma emit_line_last (os : ostream)
    (st : colstate) (col : column) (state : list colstate) :
  emit_line os sep fill (st :: state) [col]
  = (let (os1, st1) := emit_col os st col in (os1, [breakLine st1])).
Proof.
  cbn [emit_line]. destruct (emit_col os st col) as [os1 st1].
  destruct state; reflexivity.
Qed.

Lemma tabulate_loop_lines (fuel : nat) :
  forall os state c,
  Forall (fun sc => size (snd sc) - cp (fst sc) <= fuel) (combine state c) ->
  tabulate_loop fuel os sep fill state c
  = Some (os ++ terminated (tabulate_lines fuel sep fill state c))
  /\ List.length (tabulate_lines fuel sep fill state c)
     = list_max (map (fun sc => rounds_from fuel (fst sc) (snd sc))
                   (combine state c)).
Proof.
  induction fuel as [|fuel IH]; intros os state c Hb.
  - assert (Hall : forall sc, In sc (combine state c) -> unfinished sc = false).
    { intros sc Hin. rewrite Forall_forall in Hb. specialize (Hb sc Hin).
      unfold unfinished. apply negb_false_iff, end_true_iff. lia. }
    assert (Hu : is_unconsumed state c = false).
    { rewrite is_unconsumed_combine.
      destruct (existsb unfinished (combine state c)) eqn:E; auto.
      apply existsb_exists in E. destruct E as [sc [Hin Hsc]].
      rewrite Hall in Hsc by exact Hin. discriminate. }
    simpl. rewrite Hu. simpl. rewrite app_nil_r. split; auto.
    symmetry. apply list_max_zero. intros sc Hin.
    specialize (Hall sc Hin). apply negb_false_iff in Hall.
    exact (rounds_from_end 0 _ _ Hall).
  - cbn [tabulate_loop tabulate_lines].
    destruct (is_unconsumed state c) eqn:Hu.
    + rewrite !emit_line_cells. cbn [app List.length].
      pose proof (next_states_bound fuel state c Hb) as Hb'.
      destruct (IH (put (os ++ line_cells sep fill state c) LF)
                  (next_states state c) c Hb') as [Ho Hl].
      rewrite Ho, Hl. split.
      * unfold put, terminated. simpl. rewrite <- !app_assoc. reflexivity.
      * rewrite combine_next_states, map_map. symmetry.
        apply list_max_succ with (e := unfinished).
        -- intros [st col] E. apply negb_true_iff in E. cbn [fst snd] in *.
           apply rounds_from_succ. exact E.
        -- intros [st col] E. apply negb_false_iff in E. cbn [fst snd] in *.
           split; apply rounds_from_end; auto. apply col_next_end; exact E.
        -- rewrite <- is_unconsumed_combine. exact Hu.
    + cbn [terminated flat_map List.length]. rewrite app_nil_r. split; auto.
      symmetry. apply list_max_zero. intros sc Hin.
      rewrite is_unconsumed_combine in Hu.
      apply rounds_from_end.
      destruct (end_ (fst sc) (snd sc)) eqn:E; auto.
      assert (existsb unfinished (combine state c) = true).
      { apply existsb_exists. exists sc. split; auto.
        unfold unfinished. rewrite E. reflexivity. }
      congruence.
Qed.

(** [tabulate] returns, and writes the lines of [lines_of]. *)
Lemma tabulate_lines_of (os : ostream)
    (cols : list column) :
  tabulate os sep fill cols = Some (os ++ terminated (lines_of sep fill cols)).
Proof.
  unfold tabulate, lines_of.
  apply tabulate_loop_lines. apply initial_state_bound. lia.
Qed.

Lemma tabulate_lines_length
    (cols : list column) (fuel : nat) :
  max_size cols <= fuel ->
  List.length (tabulate_lines fuel sep fill (initial_state cols) cols)
  = list_max (map (fun c => rounds_from (size c) colstate_init c) cols).
Proof.
  intros Hf.
  destruct (tabulate_loop_lines fuel []
              (initial_state cols) cols
              (initial_state_bound cols _ Hf)) as [_ H].
  rewrite H, combine_initial_state, map_map. f_equal.
  apply map_ext_in. intros c Hc. simpl.
  pose proof (size_le_max_size cols c Hc).
  apply rounds_from_enough; simpl; lia.
Qed.

Lemma lines_of_length (cols : list column) :
  List.length (lines_of sep fill cols)
  = list_max (map (fun c => rounds_from (size c) colstate_init c) cols).
Proof. apply tabulate_lines_length. lia. Qed.

(** Giving the outer loop more fuel than [tabulate] does changes nothing. *)
Lemma tabulate_loop_fuel (fuel : nat) :
  forall fuel' os state c,
  Forall (fun sc => size (snd sc) - cp (fst sc) <= fuel) (combine state c) ->
  Forall (fun sc => size (snd sc) - cp (fst sc) <= fuel') (combine state c) ->
  tabulate_loop fuel os sep fill state c
  = tabulate_loop fuel' os sep fill state c.
Proof.
  induction fuel as [|fuel IH]; intros fuel' os state c Hb Hb'.
  - pose proof (bound_zero_consumed state c Hb) as Hu.
    destruct fuel'; simpl; rewrite Hu; reflexivity.
  - destruct fuel' as [|fuel'].
    + pose proof (bound_zero_consumed state c Hb') as Hu.
      simpl; rewrite Hu; reflexivity.
    + simpl. destruct (is_unconsumed state c); auto.
      rewrite emit_line_cells. apply IH; apply next_states_bound; assumption.
Qed.

Lemma tabulate_loop_enough (fuel : nat) (os : ostream)
    (cols : list column) :
  max_size cols <= fuel ->
  tabulate_loop fuel os sep fill (initial_state cols) cols
  = tabulate os sep fill cols.
Proof.
  intros H. unfold tabulate.
  apply tabulate_loop_fuel; apply initial_state_bound; lia.
Qed.

Lemma tabulate_lines_exhausted_left
    (e c : column) (fuel : nat) :
  forall ste st, end_ ste e = true -> lp ste = 0 ->
  tabulate_lines fuel sep fill [ste; st] [e; c]
  = map (fun seg => repeat fill (fill_count fill 0 (width e)) ++ sep ++ seg)
      (tabulate_lines fuel sep fill [st] [c]).
Proof.
  induction fuel as [|fuel IH]; intros ste st He Hlp;
    cbn [tabulate_lines is_unconsumed]; rewrite He; cbn [negb].
  - destruct (negb (end_ st c)); reflexivity.
  - destruct (negb (end_ st c)); [|reflexivity].
    rewrite !emit_line_cells. cbn [next_states line_cells app map].
    rewrite (col_seg_end ste e He), (col_next_end_eq ste e He), Hlp.
    cbn [List.length app]. rewrite !app_nil_r, <- app_assoc. f_equal.
    apply IH; [exact He | reflexivity].
Qed.

Lemma tabulate_lines_exhausted_right
    (e c : column) (fuel : nat) :
  forall ste st, end_ ste e = true -> lp st = 0 ->
  tabulate_lines fuel sep fill [st; ste] [c; e]
  = map (fun seg =>
           seg ++ repeat fill (fill_count fill (List.length seg) (width c))
               ++ sep)
      (tabulate_lines fuel sep fill [st] [c]).
Proof.
  induction fuel as [|fuel IH]; intros ste st He Hlp;
    cbn [tabulate_lines is_unconsumed]; rewrite He; cbn [negb].
  - destruct (negb (end_ st c)); reflexivity.
  - destruct (negb (end_ st c)); [|reflexivity].
    rewrite !emit_line_cells. cbn [next_states line_cells app map].
    rewrite (col_seg_end ste e He), (col_next_end_eq ste e He), Hlp.
    cbn [List.length app plus]. rewrite !app_nil_r. f_equal.
    apply IH; [exact He | reflexivity].
Qed.

Lemma lines_of_empty_left (e c : column) :
  size e = 0 ->
  lines_of sep fill [e; c]
  = map (fun seg => repeat fill (fill_count fill 0 (width e)) ++ sep ++ seg)
      (lines_of sep fill [c]).
Proof.
  intros Hz.
  assert (H1 : max_size [e; c] = size c) by (unfold max_size; simpl; lia).
  assert (H2 : max_size [c] = size c) by (unfold max_size; simpl; lia).
  unfold lines_of. rewrite H1, H2. cbn [initial_state map].
  apply tabulate_lines_exhausted_left; [|reflexivity].
  apply end_true_iff. simpl. lia.
Qed.

Lemma lines_of_empty_right (e c : column) :
  size e = 0 ->
  lines_of sep fill [c; e]
  = map (fun seg =>
           seg ++ repeat fill (fill_count fill (List.length seg) (width c))
               ++ sep)
      (lines_of sep fill [c]).
Proof.
  intros Hz.
  assert (H1 : max_size [c; e] = size c) by (unfold max_size; simpl; lia).
  assert (H2 : max_size [c] = size c) by (unfold max_size; simpl; lia).
  unfold lines_of. rewrite H1, H2. cbn [initial_state map].
  apply tabulate_lines_exhausted_right; [|reflexivity].
  apply end_true_iff. simpl. lia.
Qed.

(** Lines without a newline inside. *)

Section NoNewline.

Hypothesis sep_no_newline : ~ In LF sep.
Hypothesis fill_no_newline : fill <> LF.

Lemma line_cells_no_newline :
  forall state c, ~ In LF (line_cells sep fill state c).
Proof.
  induction state as [|st state IH]; intros [|col c]; simpl; auto.
  intros H. apply in_app_or in H. destruct H as [H|H].
  { exact (col_seg_no_newline st col H). }
  apply in_app_or in H. destruct H as [H|H]; [|exact (IH c H)].
  destruct c as [|col2 c]; [exact H|].
  apply in_app_or in H. destruct H as [H|H]; [|exact (sep_no_newline H)].
  apply repeat_spec in H. congruence.
Qed.

Lemma tabulate_lines_no_newline :
  forall fuel state c,
  Forall (fun l => ~ In LF l) (tabulate_lines fuel sep fill state c).
Proof.
  induction fuel as [|fuel IH]; intros state c; cbn [tabulate_lines];
    destruct (is_unconsumed state c); try constructor.
  - rewrite emit_line_cells. simpl. constructor; [|apply IH].
    apply line_cells_no_newline; assumption.
Qed.

End NoNewline.

End Lines.

(** ** A single column, turn by turn *)

Lemma tabulate_lines_single (sep : list ascii) (fill : ascii) (fuel : nat)
    (st : colstate) (c : column) :
  tabulate_lines (S fuel) sep fill [st] [c]
  = if end_ st c then []
    else col_seg st c :: tabulate_lines fuel sep fill [col_next st c] [c].
Proof.
  cbn [tabulate_lines is_unconsumed].
  destruct (end_ st c); cbn [negb]; [reflexivity|].
  rewrite emit_line_cells. cbn [line_cells next_states app].
  rewrite !app_nil_r. reflexivity.
Qed.

Lemma tabulate_lines_single_0 (sep : list ascii) (fill : ascii)
    (st : colstate) (c : column) :
  tabulate_lines 0 sep fill [st] [c] = [].
Proof.
  cbn [tabulate_lines is_unconsumed]. destruct (negb (end_ st c)); reflexivity.
Qed.

Lemma lines_of_single (sep : list ascii) (fill : ascii) (c : column) :
  lines_of sep fill [c]
  = tabulate_lines (size c) sep fill [colstate_init] [c].
Proof.
  unfold lines_of, max_size. cbn [map list_max fold_right initial_state].
  rewrite Nat.max_0_r. reflexivity.
Qed.

Lemma col_next_skipn (st : colstate) (c : column) :
  skipn (cp (col_next st c)) (p c)
  = skipn (snd (wrap_line (skipn (cp st) (p c)) (width c) (lp st)))
      (skipn (cp st) (p c)).
Proof.
  rewrite col_next_cp, emit_col_cp, skipn_skipn. f_equal. lia.
Qed.

Lemma end_skipn (st : colstate) (c : column) :
  end_ st c = match skipn (cp st) (p c) with [] => true | _ :: _ => false end.
Proof.
  destruct (end_ st c) eqn:E.
  - apply end_true_iff in E. rewrite skipn_all2 by exact E. reflexivity.
  - apply end_false_iff in E. rewrite (at_skipn c (cp st) E). reflexivity.
Qed.

(** ** The fill loop on [size_t] *)

Lemma size_t_add_small (a b : N) :
  (a + b <= SIZE_MAX)%N -> size_t_add a b = (a + b)%N.
Proof. intros H. unfold size_t_add. apply N.mod_small. lia. Qed.

Lemma SIZE_MAX_value : SIZE_MAX = 18446744073709551615%N.
Proof. reflexivity. Qed.

(** Adding 8 keeps the remainder modulo 8, also when the sum wraps. *)
Lemma size_t_add_8 (k r : N) :
  (r < 8)%N -> (k < 2 ^ 61)%N ->
  exists k', (k' < 2 ^ 61)%N /\ size_t_add (8 * k + r) 8 = (8 * k' + r)%N.
Proof.
  intros Hr Hk. unfold size_t_add. rewrite SIZE_MAX_value.
  change (2 ^ 61)%N with 2305843009213693952%N in *.
  change (18446744073709551615 + 1)%N with 18446744073709551616%N.
  destruct (N.eq_dec (k + 1) 2305843009213693952) as [E|E].
  - exists 0%N. split; [lia|].
    replace (8 * k + r + 8)%N with (r + 1 * 18446744073709551616)%N by lia.
    rewrite N.Div0.mod_add. rewrite N.mod_small by lia. lia.
  - exists (k + 1)%N. split; [lia|]. rewrite N.mod_small by lia. lia.
Qed.

(** With a step of 8 and a width of [SIZE_MAX] the index never reaches the
    width unless it starts at 7 modulo 8. *)
Lemma fill_loop_never_ends (fuel : nat) :
  forall os k r, (r < 7)%N -> (k < 2 ^ 61)%N ->
  switch_col_loop_size_t fuel os (8 * k + r) SIZE_MAX 8 TAB = None.
Proof.
  induction fuel as [|fuel IH]; intros os k r Hr Hk; [reflexivity|].
  cbn [switch_col_loop_size_t].
  assert (Hlt : (8 * k + r <? SIZE_MAX)%N = true).
  { apply N.ltb_lt. rewrite SIZE_MAX_value.
    change (2 ^ 61)%N with 2305843009213693952%N in Hk. lia. }
  rewrite Hlt.
  destruct (size_t_add_8 k r) as [k' [Hk' E]]; [lia | exact Hk |].
  rewrite E. apply IH; assumption.
Qed.

Lemma switch_col_loop_size_t_exact (w inc : nat) (fill : ascii) :
  0 < inc -> (N.of_nat w + N.of_nat (inc - 1) <= SIZE_MAX)%N ->
  forall fuel i os, w - i < fuel ->
  switch_col_loop_size_t fuel os (N.of_nat i) (N.of_nat w) (N.of_nat inc) fill
  = Some (switch_col_loop (w - i) os i w inc fill).
Proof.
  intros Hinc Hw. induction fuel as [|fuel IH]; intros i os Hf; [lia|].
  cbn [switch_col_loop_size_t].
  destruct (N.ltb_spec (N.of_nat i) (N.of_nat w)) as [Hi|Hi].
  - rewrite size_t_add_small by lia.
    replace (N.of_nat i + N.of_nat inc)%N with (N.of_nat (i + inc)) by lia.
    rewrite IH by lia. f_equal.
    replace (w - i) with (S (w - i - 1)) by lia. cbn [switch_col_loop].
    assert (Hlt : (i <? w) = true) by (apply Nat.ltb_lt; lia).
    rewrite Hlt. rewrite !switch_col_loop_count by lia. reflexivity.
  - replace (w - i) with 0 by lia. reflexivity.
Qed.

Lemma switch_col_size_t_exact (fuel : nat) (os : ostream) (st : colstate)
    (w : nat) (fill : ascii) (sep : list ascii) :
  fill_in_range fill w -> w - lp st < fuel ->
  switch_col_size_t fuel os st w fill sep
  = Some (switch_col os st w fill sep).
Proof.
  unfold fill_in_range, switch_col_size_t, switch_col. intros Hr Hf.
  destruct (Ascii.eqb fill TAB).
  - change 8%N with (N.of_nat 8).
    rewrite switch_col_loop_size_t_exact; auto; simpl; lia.
  - change 1%N with (N.of_nat 1).
    rewrite switch_col_loop_size_t_exact; auto; simpl; lia.
Qed.

Section LinesSizeT.

Variable sep : list ascii.
Variable fill : ascii.
Variable ffuel : nat.

Lemma emit_line_size_t_exact (state : list colstate) :
  forall (c : list column) (os : ostream),
  Forall (fun col => fill_in_range fill (width col)) c ->
  Forall (fun col => width col < ffuel) c ->
  emit_line_size_t ffuel os sep fill state c
  = Some (emit_line os sep fill state c).
Proof.
  induction state as [|st state IH]; intros [|col c] os Hr Hf;
    cbn [emit_line_size_t emit_line]; try reflexivity.
  inversion Hr as [|? ? Hr1 Hr2]; inversion Hf as [|? ? Hf1 Hf2]; subst.
  destruct (emit_col os st col) as [os1 st1].
  destruct c as [|col2 c].
  - rewrite IH by assumption.
    destruct (emit_line os1 sep fill state []). reflexivity.
  - rewrite switch_col_size_t_exact by (auto; lia).
    rewrite IH by assumption.
    destruct (emit_line (switch_col os1 st1 (width col) fill sep) sep fill
                state (col2 :: c)).
    reflexivity.
Qed.

Lemma tabulate_loop_size_t_exact (c : list column) :
  Forall (fun col => fill_in_range fill (width col)) c ->
  Forall (fun col => width col < ffuel) c ->
  forall fuel os state,
  tabulate_loop_size_t fuel ffuel os sep fill state c
  = tabulate_loop fuel os sep fill state c.
Proof.
  intros Hr Hf. induction fuel as [|fuel IH]; intros os state;
    cbn [tabulate_loop_size_t tabulate_loop];
    destruct (is_unconsumed state c); try reflexivity.
  rewrite emit_line_size_t_exact by assumption.
  destruct (emit_line os sep fill state c) as [os1 state1]. apply IH.
Qed.

End LinesSizeT.

Lemma tabulate_size_t_exact (sep : list ascii) (fill : ascii) (fuel : nat)
    (os : ostream) (cols : list column) :
  Forall (fun c => fill_in_range fill (width c)) cols ->
  max_size cols <= fuel -> Forall (fun c => width c < fuel) cols ->
  tabulate_size_t fuel os sep fill cols = tabulate os sep fill cols.
Proof.
  intros Hr Hm Hf. unfold tabulate_size_t.
  rewrite tabulate_loop_size_t_exact by assumption.
  apply tabulate_loop_enough. exact Hm.
Qed.

(** An exhausted column of width [SIZE_MAX] that is not the last: with a
    tab fill the inner loop never gets past it. *)
Lemma emit_line_size_t_stuck (w : nat) (fuel : nat) (os : ostream)
    (sep : list ascii) (st : colstate) (state : list colstate)
    (e col2 : column) (cs : list column) :
  N.of_nat w = SIZE_MAX -> width e = w -> end_ st e = true -> lp st = 0 ->
  emit_line_size_t fuel os sep TAB (st :: state) (e :: col2 :: cs) = None.
Proof.
  intros Hw He Hend Hlp. cbn [emit_line_size_t].
  rewrite (emit_col_end os st e Hend). unfold switch_col_size_t.
  change (Ascii.eqb TAB TAB) with true. cbv iota.
  rewrite He, Hw, Hlp. change (N.of_nat 0) with (8 * 0 + 0)%N.
  rewrite fill_loop_never_ends; [reflexivity | lia | reflexivity].
Qed.

(** ** Word wrap of a text and the lines of a column *)

Lemma tabulate_lines_single_wrap (sep : list ascii) (fill : ascii)
    (c : column) (fuel : nat) :
  forall st, lp st = 0 ->
  tabulate_lines fuel sep fill [st] [c]
  = wrap_lines fuel (skipn (cp st) (p c)) (width c).
Proof.
  induction fuel as [|fuel IH]; intros st Hlp.
  - rewrite tabulate_lines_single_0.
    destruct (skipn (cp st) (p c)); reflexivity.
  - rewrite tabulate_lines_single, end_skipn.
    pose proof (col_next_skipn st c) as Hn.
    pose proof (col_seg_wrap st c) as Hs. rewrite Hlp in Hn, Hs.
    destruct (skipn (cp st) (p c)) as [|a rest] eqn:E; [reflexivity|].
    cbn [wrap_lines].
    destruct (wrap_line (a :: rest) (width c) 0) as [seg n].
    cbn [fst snd] in *.
    rewrite Hs. f_equal. rewrite IH by reflexivity. rewrite Hn. reflexivity.
Qed.

Lemma lines_of_wrapped (sep : list ascii) (fill : ascii) (c : column) :
  lines_of sep fill [c] = wrapped (p c) (width c).
Proof.
  rewrite lines_of_single. unfold wrapped.
  apply (tabulate_lines_single_wrap sep fill c (size c) colstate_init).
  reflexivity.
Qed.

Lemma count_occ_terminated (ls : list (list ascii)) :
  Forall (fun l => ~ In LF l) ls ->
  count_occ ascii_dec (terminated ls) LF = List.length ls.
Proof.
  unfold terminated. induction 1 as [|l ls Hl Hls IH]; simpl; auto.
  rewrite !count_occ_app, IH.
  rewrite (proj1 (count_occ_not_In ascii_dec l LF) Hl). simpl.
  destruct (ascii_dec LF LF); [reflexivity | congruence].
Qed.

(** * Properties of the specification *)

(** ** The line-break decision *)

(** C1 (as amended).  For every cursor state, every character [ch] and every
    column whose text holds no NUL character (every column built from a C
    string), [linebreak] answers as the reference algorithm of the
    specification does: [ch] is a newline, or [ch] is blank and the scan
    from [cp] with a counter starting at [lp] does not find a blank or the
    end of the text while the counter is below the width. *)
Theorem linebreak_matches_reference (st : colstate) (ch : ascii)
    (c : column) :
  Forall (fun a => a <> NUL) (p c) ->
  linebreak st ch c = would_break (p c) (width c) (cp st) (lp st) ch.
Proof.
  intros Hnul. unfold linebreak, would_break, word_fits.
  rewrite nextWordFits_scan, fits_scan_word_fits; auto.
  apply Forall_skipn_tail. exact Hnul.
Qed.

Lemma linebreak_matches_reference_witness :
  let c := column_of "abc def ghi" 6 in
  let st := mk_colstate 4 3 in
  Forall (fun a => a <> NUL) (p c)
  /\ linebreak st SPACE c = true
  /\ would_break (p c) (width c) (cp st) (lp st) SPACE = true.
Proof.
  intros c st.
  assert (H : Forall (fun a => a <> NUL) (p c)).
  { repeat constructor; discriminate. }
  split; [exact H|].
  split; [reflexivity|].
  rewrite <- (linebreak_matches_reference st SPACE c H). reflexivity.
Defined.

(** C1 (as stated) fails on a text with an embedded NUL: the scan of
    [nextWordFits] stops at the NUL of [" x\0yyy"] and finds that the word
    fits in a width of 3, the reference algorithm reads on to the end of the
    text and finds that it does not. *)
Lemma linebreak_differs_on_embedded_nul :
  let c := mk_column [SPACE; "x"; NUL; "y"; "y"; "y"]%char 3 in
  let st := mk_colstate 1 0 in
  linebreak st SPACE c = false
  /\ would_break (p c) (width c) (cp st) (lp st) SPACE = true
  /\ linebreak st SPACE c
     <> would_break (p c) (width c) (cp st) (lp st) SPACE.
Proof. repeat split; try reflexivity. discriminate. Qed.

(** ** The overloads *)

(** C9.  The two convenience overloads write what the full form writes with
    a space as fill, and with a single space as separator. *)
Theorem overloads_delegate (os : ostream) (sep : list ascii)
    (cols : list column) :
  tabulate_sep os sep cols = tabulate os sep SPACE cols
  /\ tabulate_default os cols = tabulate os [SPACE] SPACE cols.
Proof. split; reflexivity. Qed.

(** ** Empty texts *)

(** C10.  When every text is empty [tabulate] writes nothing, not even a
    line terminator: the loop condition fails before the first turn. *)
Theorem tabulate_all_empty (os : ostream) (sep : list ascii) (fill : ascii)
    (cols : list column) :
  Forall (fun c => size c = 0) cols ->
  is_unconsumed (initial_state cols) cols = false
  /\ tabulate os sep fill cols = Some os.
Proof.
  intros H.
  assert (Hu : is_unconsumed (initial_state cols) cols = false).
  { apply bound_zero_consumed. rewrite combine_initial_state.
    apply Forall_map. apply Forall_impl with (2 := H).
    intros c Hc. simpl. lia. }
  split; [exact Hu|].
  unfold tabulate. destruct (max_size cols); simpl; rewrite Hu; reflexivity.
Qed.

Lemma tabulate_all_empty_witness :
  let cols := [mk_column [] 3; mk_column [] 5] in
  Forall (fun c => size c = 0) cols
  /\ tabulate [] [SPACE] SPACE cols = Some [].
Proof.
  intros cols.
  assert (H : Forall (fun c => size c = 0) cols)
    by (repeat constructor).
  split; [exact H|].
  exact (proj2 (tabulate_all_empty [] [SPACE] SPACE cols H)).
Defined.

(** ** Termination *)

(** C2 (as amended).  For columns of width at least 1 whose widths are in
    the range of the fill loop (a [size_t], at most [SIZE_MAX - 7] for a tab
    fill), [tabulate] returns, also with its fill loops on [size_t], and
    more fuel changes nothing; the inner loop returns; in every turn of the
    outer loop a column that is not exhausted moves its [cp] forward by at
    least one character, either emitting a character or dropping the
    breaking character under the cursor; and the outer loop makes at most
    as many turns as the longest text has characters, whatever fuel it is
    given. *)
Theorem tabulate_terminates (os : ostream) (sep : list ascii) (fill : ascii)
    (cols : list column) :
  Forall (fun c => 1 <= width c) cols ->
  Forall (fun c => fill_in_range fill (width c)) cols ->
  (exists os',
     tabulate os sep fill cols = Some os'
     /\ forall fuel, max_size cols <= fuel ->
        Forall (fun c => width c < fuel) cols ->
        tabulate_size_t fuel os sep fill cols = Some os')
  /\ (forall fuel, max_size cols <= fuel ->
      tabulate_loop fuel os sep fill (initial_state cols) cols
      = tabulate os sep fill cols)
  /\ (forall fuel os1 state,
      Forall (fun c => width c < fuel) cols ->
      emit_line_size_t fuel os1 sep fill state cols
      = Some (emit_line os1 sep fill state cols))
  /\ (forall os1 state i st c,
      nth_error state i = Some st -> nth_error cols i = Some c ->
      end_ st c = false ->
      exists st',
        nth_error (snd (emit_line os1 sep fill state cols)) i = Some st'
        /\ cp st < cp st' <= size c
        /\ (1 <= List.length (col_seg st c)
            \/ (cp st' = S (cp st) /\ is_break (at_ c (cp st)) = true)))
  /\ (forall fuel, max_size cols <= fuel ->
      List.length (tabulate_lines fuel sep fill (initial_state cols) cols)
      <= max_size cols).
Proof.
  intros _ Hr. split; [|split; [|split; [|split]]].
  - eexists. split; [apply tabulate_lines_of|].
    intros fuel Hm Hf. rewrite tabulate_size_t_exact by assumption.
    apply tabulate_lines_of.
  - intros fuel H. apply tabulate_loop_enough. exact H.
  - intros fuel os1 state Hf. apply emit_line_size_t_exact; assumption.
  - intros os1 state i st c Hs Hc He.
    exists (col_next st c). rewrite emit_line_cells. simpl.
    split; [apply nth_error_next_states; assumption|].
    split; [apply col_next_advances; exact He|].
    apply emit_col_emits_or_drops. exact He.
  - intros fuel Hf. rewrite tabulate_lines_length by exact Hf.
    unfold max_size. apply list_max_map_le. intros c _.
    pose proof (rounds_from_le (size c) c colstate_init). simpl in *. lia.
Qed.

Lemma tabulate_terminates_witness :
  let cols := [column_of "abc def ghi" 6; column_of "123 4432 17 8989" 4] in
  Forall (fun c => 1 <= width c) cols
  /\ Forall (fun c => fill_in_range TAB (width c)) cols
  /\ (exists os', tabulate [] [SPACE] TAB cols = Some os')
  /\ List.length (lines_of [SPACE] TAB cols) <= max_size cols.
Proof.
  intros cols.
  assert (H : Forall (fun c => 1 <= width c) cols)
    by (repeat constructor; simpl; lia).
  assert (Hr : Forall (fun c => fill_in_range TAB (width c)) cols)
    by (repeat constructor; vm_compute; discriminate).
  split; [exact H|]. split; [exact Hr|].
  destruct (tabulate_terminates [] [SPACE] TAB cols H Hr)
    as [[os' [H1 _]] [_ [_ [_ H5]]]].
  split; [exists os'; exact H1 | exact (H5 _ (Nat.le_refl _))].
Defined.

(** C2 (as stated) fails for a tab fill and a width of [SIZE_MAX]: the
    index of the fill loop after the first column goes 0, 8, 16, ..., wraps
    around from [SIZE_MAX - 7] to 0 and never reaches the width, so
    [tabulate] does not return whatever fuel it is given. *)
Lemma tabulate_never_returns_on_widest_tab_column :
  let cols := [mk_column [] huge_width; column_of "a" 1] in
  Forall (fun c => 1 <= width c) cols
  /\ forall fuel, tabulate_size_t fuel [] [SPACE] TAB cols = None.
Proof.
  intros cols. split.
  - assert (Hh : 1 <= huge_width).
    { unfold huge_width. rewrite SIZE_MAX_value. lia. }
    apply Forall_cons; [exact Hh|].
    apply Forall_cons; [simpl; lia | apply Forall_nil].
  - intros fuel. unfold tabulate_size_t.
    assert (Hu : is_unconsumed (initial_state cols) cols = true)
      by reflexivity.
    destruct fuel as [|fuel]; cbn [tabulate_loop_size_t]; rewrite Hu;
      [reflexivity|].
    unfold cols. cbn [initial_state map].
    rewrite (emit_line_size_t_stuck huge_width);
      [reflexivity | apply N2Nat.id | reflexivity | reflexivity
       | reflexivity].
Qed.

(** ** Width of a line segment *)

(** C3 (as amended).  For a column of width at least 1 and a call of
    [emit_col] at the start of an output line ([lp = 0]), the number of
    characters emitted stays within the width, unless the text at the
    cursor starts with a word longer than the width: then exactly that word
    is emitted.  After a segment within the width, a tab fill ends less
    than 8 positions past the width. *)
Theorem segment_within_width_or_one_word (os : ostream) (st : colstate)
    (c : column) :
  1 <= width c -> lp st = 0 ->
  (lp (snd (emit_col os st c)) <= width c
   \/ (width c < first_word (skipn (cp st) (p c))
       /\ lp (snd (emit_col os st c)) = first_word (skipn (cp st) (p c))
       /\ fst (emit_col os st c)
          = os ++ firstn (first_word (skipn (cp st) (p c)))
                    (skipn (cp st) (p c))))
  /\ (lp (snd (emit_col os st c)) <= width c ->
      lp (snd (emit_col os st c))
      + 8 * fill_count TAB (lp (snd (emit_col os st c))) (width c)
      < width c + 8).
Proof.
  intros _ Hlp. split.
  - rewrite emit_col_wrap. simpl. rewrite Hlp.
    destruct (wrap_line_bound (skipn (cp st) (p c)) (width c) 0)
      as [H|[H1 H2]]; [left; exact H|].
    right. rewrite H2. simpl in *. split; [exact H1|]. split; [|reflexivity].
    apply firstn_length_le. apply first_word_le.
  - intros H.
    destruct (fill_count_tab (lp (snd (emit_col os st c))) (width c))
      as [H0 H1].
    destruct (Nat.eq_dec (lp (snd (emit_col os st c))) (width c)) as [E|E].
    + rewrite H0 by lia. lia.
    + lia.
Qed.

Lemma segment_within_width_or_one_word_witness :
  let c := column_of "abc def ghi" 6 in
  1 <= width c /\ lp colstate_init = 0
  /\ lp (snd (emit_col [] colstate_init c)) <= width c.
Proof.
  intros c.
  assert (Hw : 1 <= width c) by (simpl; lia).
  split; [exact Hw|]. split; [reflexivity|].
  destruct (segment_within_width_or_one_word [] colstate_init c Hw eq_refl)
    as [[H|[H _]] _]; [exact H|].
  vm_compute in H. lia.
Defined.

(** C3 (as stated) fails on a word longer than the width: the segment of
    ["abcdefgh"] in a column of width 3 has 8 characters. *)
Lemma segment_exceeds_width :
  let c := column_of "abcdefgh" 3 in
  1 <= width c
  /\ emit_col [] colstate_init c
     = (list_ascii_of_string "abcdefgh", mk_colstate 8 8)
  /\ ~ lp (snd (emit_col [] colstate_init c)) <= width c.
Proof.
  intros c. split; [simpl; lia|]. split; [reflexivity|].
  vm_compute. lia.
Qed.

(** ** Words are not split *)

(** C4 (as amended).  A call of [emit_col] emits the text from the cursor
    on, without any newline or NUL, and stops only at the end of the text
    or on a character that it drops, which is a blank, a newline or a NUL.
    So a run of characters that holds no blank, no newline and no NUL is
    never split over two lines, and the word at the cursor is emitted whole
    whatever its length. *)
Theorem emit_col_breaks_between_words (os : ostream) (st : colstate)
    (c : column) :
  exists seg,
    fst (emit_col os st c) = os ++ seg
    /\ lp (snd (emit_col os st c)) = lp st + List.length seg
    /\ first_word (skipn (cp st) (p c)) <= List.length seg
    /\ (forall ch, In ch seg -> ch <> LF /\ ch <> NUL)
    /\ ((skipn (cp st) (p c) = seg /\ end_ (snd (emit_col os st c)) c = true)
        \/ exists d,
             skipn (cp st) (p c)
             = seg ++ d :: skipn (cp (snd (emit_col os st c))) (p c)
             /\ is_break d = true
             /\ cp (snd (emit_col os st c)) = cp st + List.length seg + 1).
Proof.
  rewrite emit_col_wrap. simpl.
  pose proof (wrap_line_split (skipn (cp st) (p c)) (width c) (lp st))
    as [Hw Hs].
  pose proof (wrap_line_no_break (skipn (cp st) (p c)) (width c) (lp st))
    as Hnb.
  destruct (wrap_line (skipn (cp st) (p c)) (width c) (lp st)) as [seg n].
  simpl in *. exists seg. repeat split; auto; try (apply Hnb; assumption).
  destruct Hs as [[H1 H2]|[d [H1 [H2 H3]]]].
  - left. split; [exact H1|]. apply end_true_iff. simpl.
    rewrite H2, length_skipn. fold (size c). lia.
  - right. exists d. rewrite skipn_skipn in H1.
    rewrite (Nat.add_comm (cp st) n). repeat split; auto. lia.
Qed.

Lemma emit_col_breaks_between_words_witness :
  let c := column_of "abc def ghi" 6 in
  exists seg,
    fst (emit_col [] colstate_init c) = [] ++ seg
    /\ List.length seg = 3
    /\ exists d,
         skipn 0 (p c) = seg ++ d :: skipn 4 (p c) /\ is_break d = true.
Proof.
  intros c.
  destruct (emit_col_breaks_between_words [] colstate_init c)
    as [seg [H1 [H2 [_ [_ H5]]]]].
  exists seg. split; [exact H1|].
  split; [exact (eq_sym H2)|].
  destruct H5 as [[_ H5]|[d [H5 [H6 H7]]]]; [discriminate H5|].
  exists d. split; [exact H5 | exact H6].
Defined.

(** C4 (as stated) fails on a newline inside a run of non-blank
    characters: the text ["ab\ncd"] holds no blank, and is written on two
    lines. *)
Lemma word_split_at_newline :
  let c := mk_column ["a"; "b"; LF; "c"; "d"]%char 10 in
  existsb isws (p c) = false
  /\ emit_col [] colstate_init c
     = (list_ascii_of_string "ab", mk_colstate 3 2)
  /\ emit_col [] (breakLine (mk_colstate 3 2)) c
     = (list_ascii_of_string "cd", mk_colstate 5 2)
  /\ lines_of [SPACE] SPACE [c]
     = [list_ascii_of_string "ab"; list_ascii_of_string "cd"].
Proof. repeat split; reflexivity. Qed.

(** ** Fill and separator *)

(** C5 (as amended).  For a width in the range of the fill loop (a
    [size_t], at most [SIZE_MAX - 7] for a tab fill), [switch_col], also
    with its loop on [size_t], writes the fill character from the line
    position up to the width and then the separator: [width - lp] fill
    characters when the fill is not a tab, and one fill character per 8
    positions when it is a tab, which then ends less than 8 positions past
    the width.  In a line every column but the last is followed by this
    fill and the separator; the last column is followed by neither. *)
Theorem fill_and_separator (os : ostream) (sep : list ascii) (fill : ascii)
    (st : colstate) (col : column) :
  fill_in_range fill (width col) ->
  switch_col os st (width col) fill sep
  = os ++ repeat fill (fill_count fill (lp st) (width col)) ++ sep
  /\ (forall fuel, width col - lp st < fuel ->
      switch_col_size_t fuel os st (width col) fill sep
      = Some (os ++ repeat fill (fill_count fill (lp st) (width col))
                 ++ sep))
  /\ (fill <> TAB -> forall l w, fill_count fill l w = w - l)
  /\ (forall l w,
        (w <= l -> fill_count TAB l w = 0)
        /\ (l < w -> w <= l + 8 * fill_count TAB l w < w + 8))
  /\ (forall fuel state col2 c, width col < fuel ->
        emit_line_size_t fuel os sep fill (st :: state) (col :: col2 :: c)
        = (let (os1, st1) := emit_col os st col in
           match
             emit_line_size_t fuel
               (os1 ++ repeat fill (fill_count fill (lp st1) (width col))
                    ++ sep)
               sep fill state (col2 :: c)
           with
           | Some (os3, state3) => Some (os3, breakLine st1 :: state3)
           | None => None
           end))
  /\ (forall fuel state,
        emit_line_size_t fuel os sep fill (st :: state) [col]
        = (let (os1, st1) := emit_col os st col in
           Some (os1, [breakLine st1]))).
Proof.
  intros Hr.
  split; [apply switch_col_fill|].
  split.
  { intros fuel Hf. rewrite switch_col_size_t_exact by assumption.
    rewrite switch_col_fill. reflexivity. }
  split.
  { intros Hf l w. unfold fill_count.
    apply Ascii.eqb_neq in Hf. rewrite Hf. reflexivity. }
  split; [apply fill_count_tab|].
  split.
  - intros fuel state col2 c Hf. cbn [emit_line_size_t].
    destruct (emit_col os st col) as [os1 st1].
    rewrite switch_col_size_t_exact by (auto; lia).
    rewrite switch_col_fill. reflexivity.
  - intros fuel state. cbn [emit_line_size_t].
    destruct (emit_col os st col) as [os1 st1].
    destruct state; reflexivity.
Qed.

Lemma fill_and_separator_witness :
  let st := mk_colstate 3 3 in
  let col := column_of "abc" 6 in
  fill_in_range TAB (width col) /\ 3 < 6
  /\ switch_col_size_t 7 [] st (width col) TAB [SPACE]
     = Some (repeat TAB (fill_count TAB 3 6) ++ [SPACE])
  /\ 6 <= 3 + 8 * fill_count TAB 3 6 < 6 + 8.
Proof.
  intros st col.
  assert (Hr : fill_in_range TAB (width col))
    by (vm_compute; discriminate).
  assert (Hl : 3 < 6) by lia.
  split; [exact Hr|]. split; [exact Hl|].
  destruct (fill_and_separator [] [SPACE] TAB st col Hr)
    as [_ [H2 [_ [H4 _]]]].
  split; [apply (H2 7); simpl; lia|].
  exact (proj2 (H4 3 6) Hl).
Defined.

(** C5 (as stated) fails for a tab fill and a width of [SIZE_MAX]: after a
    segment of one character the index of the fill loop goes 1, 9, 17, ...,
    wraps around and never reaches the width; the fill never ends and the
    separator is never written. *)
Lemma tab_fill_never_reaches_separator :
  N.of_nat huge_width = SIZE_MAX
  /\ forall fuel,
     switch_col_size_t fuel [] (mk_colstate 1 1) huge_width TAB [SPACE]
     = None.
Proof.
  split; [apply N2Nat.id|].
  intros fuel. unfold switch_col_size_t.
  change (Ascii.eqb TAB TAB) with true. cbv iota.
  unfold huge_width. rewrite N2Nat.id.
  change (N.of_nat (lp (mk_colstate 1 1))) with (8 * 0 + 1)%N.
  rewrite fill_loop_never_ends; [reflexivity | lia | reflexivity].
Qed.

(** ** Number of lines *)

(** C6 (as amended).  For columns of width at least 1 in the range of the
    fill loop, and a separator and a fill character that hold no newline,
    [tabulate] returns, also with its fill loops on [size_t]; what it
    writes is its lines, each followed by one newline and none holding a
    newline, so the number of newlines written is the number of lines; and
    that number is the largest number of lines of a column's text wrapped
    at its width, which is what [tabulate] writes for the column alone. *)
Theorem line_count_is_longest_column (os : ostream) (sep : list ascii)
    (fill : ascii) (cols : list column) :
  Forall (fun c => 1 <= width c) cols ->
  Forall (fun c => fill_in_range fill (width c)) cols ->
  ~ In LF sep -> fill <> LF ->
  tabulate os sep fill cols
  = Some (os ++ flat_map (fun l => l ++ [LF]) (lines_of sep fill cols))
  /\ (forall fuel, max_size cols <= fuel ->
      Forall (fun c => width c < fuel) cols ->
      tabulate_size_t fuel os sep fill cols = tabulate os sep fill cols)
  /\ Forall (fun l => ~ In LF l) (lines_of sep fill cols)
  /\ count_occ ascii_dec
       (flat_map (fun l => l ++ [LF]) (lines_of sep fill cols)) LF
     = list_max (map (fun c => List.length (wrapped (p c) (width c))) cols)
  /\ List.length (lines_of sep fill cols)
     = list_max (map (fun c => List.length (wrapped (p c) (width c))) cols)
  /\ (forall c,
        tabulate [] sep fill [c]
        = Some (flat_map (fun l => l ++ [LF]) (wrapped (p c) (width c)))).
Proof.
  intros _ Hr Hsep Hfill.
  assert (Hlen : List.length (lines_of sep fill cols)
                 = list_max
                     (map (fun c => List.length (wrapped (p c) (width c)))
                        cols)).
  { rewrite lines_of_length. f_equal. apply map_ext. intros c.
    rewrite <- (lines_of_wrapped sep fill c), lines_of_length.
    simpl. lia. }
  assert (Hnl : Forall (fun l => ~ In LF l) (lines_of sep fill cols))
    by (apply tabulate_lines_no_newline; assumption).
  split; [apply tabulate_lines_of|].
  split; [intros fuel Hm Hf; apply tabulate_size_t_exact; assumption|].
  split; [exact Hnl|].
  split.
  { rewrite <- Hlen. apply (count_occ_terminated _ Hnl). }
  split; [exact Hlen|].
  intros c. rewrite tabulate_lines_of, lines_of_wrapped. reflexivity.
Qed.

Lemma line_count_is_longest_column_witness :
  let cols := [column_of "abc def ghi" 6; column_of "123 4432 17 8989" 4] in
  Forall (fun c => 1 <= width c) cols
  /\ Forall (fun c => fill_in_range SPACE (width c)) cols
  /\ ~ In LF [SPACE] /\ SPACE <> LF
  /\ List.length (lines_of [SPACE] SPACE cols)
     = list_max (map (fun c => List.length (wrapped (p c) (width c))) cols).
Proof.
  intros cols.
  assert (H : Forall (fun c => 1 <= width c) cols)
    by (repeat constructor; simpl; lia).
  assert (Hr : Forall (fun c => fill_in_range SPACE (width c)) cols)
    by (repeat constructor; vm_compute; discriminate).
  assert (Hs : ~ In LF [SPACE]).
  { simpl. intros [E|E]; [discriminate E | exact E]. }
  assert (Hf : SPACE <> LF) by discriminate.
  split; [exact H|]. split; [exact Hr|]. split; [exact Hs|].
  split; [exact Hf|].
  destruct (line_count_is_longest_column [] [SPACE] SPACE cols H Hr Hs Hf)
    as [_ [_ [_ [_ [H5 _]]]]].
  exact H5.
Defined.

(** C6 (as stated) fails when the separator holds a newline: for the
    columns ["a"] and ["b"] of width 1 and the separator ["\n"], [tabulate]
    writes ["a\nb\n"], two newline-terminated lines, while each column
    alone is written on one line. *)
Lemma newline_separator_doubles_the_lines :
  let cols := [column_of "a" 1; column_of "b" 1] in
  Forall (fun c => 1 <= width c) cols
  /\ tabulate [] [LF] SPACE cols = Some ["a"; LF; "b"; LF]%char
  /\ count_occ ascii_dec ["a"; LF; "b"; LF]%char LF = 2
  /\ map (fun c => tabulate [] [LF] SPACE [c]) cols
     = [Some ["a"; LF]%char; Some ["b"; LF]%char]
  /\ list_max (map (fun c => List.length (lines_of [LF] SPACE [c])) cols) = 1.
Proof.
  intros cols. split; [repeat constructor|]. repeat split; reflexivity.
Qed.

(** ** Exhausted columns *)

(** C7 (as amended).  On an exhausted column [emit_col] writes nothing and
    keeps the state, and the column stays exhausted.  When the widths are
    in the range of the fill loop (a [size_t], at most [SIZE_MAX - 7] for a
    tab fill), such a column contributes to a line its fill and the
    separator, or nothing when it is the last one; and when the text of the
    column is empty and the column is paired with a column [c], the lines
    are those of [c] alone, each with the fill and the separator of the
    pair, so both columns end on the same line. *)
Theorem exhausted_column_only_fill (os : ostream) (sep : list ascii)
    (fill : ascii) (st : colstate) (col c : column) :
  end_ st col = true ->
  fill_in_range fill (width col) -> fill_in_range fill (width c) ->
  emit_col os st col = (os, st)
  /\ end_ (breakLine st) col = true
  /\ (forall fuel state col2 cs, width col < fuel ->
        emit_line_size_t fuel os sep fill (st :: state) (col :: col2 :: cs)
        = match
            emit_line_size_t fuel
              (os ++ repeat fill (fill_count fill (lp st) (width col))
                  ++ sep)
              sep fill state (col2 :: cs)
          with
          | Some (os3, state3) => Some (os3, breakLine st :: state3)
          | None => None
          end)
  /\ (forall fuel state,
        emit_line_size_t fuel os sep fill (st :: state) [col]
        = Some (os, [breakLine st]))
  /\ (size col = 0 ->
      forall fuel, size c <= fuel -> width col < fuel -> width c < fuel ->
      tabulate_size_t fuel os sep fill [c]
      = Some (os ++ flat_map (fun seg => seg ++ [LF]) (lines_of sep fill [c]))
      /\ tabulate_size_t fuel os sep fill [col; c]
         = Some (os ++ flat_map
                         (fun seg =>
                            repeat fill (fill_count fill 0 (width col))
                            ++ sep ++ seg ++ [LF])
                         (lines_of sep fill [c]))
      /\ tabulate_size_t fuel os sep fill [c; col]
         = Some (os ++ flat_map
                         (fun seg =>
                            seg
                            ++ repeat fill
                                 (fill_count fill (List.length seg) (width c))
                            ++ sep ++ [LF])
                         (lines_of sep fill [c]))).
Proof.
  intros He Hr Hrc.
  split; [apply emit_col_end; exact He|].
  split; [exact He|].
  split; [|split].
  - intros fuel state col2 cs Hf. cbn [emit_line_size_t].
    rewrite (emit_col_end os st col He).
    rewrite switch_col_size_t_exact by (auto; lia).
    rewrite switch_col_fill. reflexivity.
  - intros fuel state. cbn [emit_line_size_t].
    rewrite (emit_col_end os st col He). destruct state; reflexivity.
  - intros Hz fuel Hs Hf Hfc.
    rewrite !tabulate_size_t_exact;
      try (repeat constructor; assumption);
      try (unfold max_size; simpl; lia).
    rewrite !tabulate_lines_of.
    rewrite (lines_of_empty_left sep fill col c Hz).
    rewrite (lines_of_empty_right sep fill col c Hz).
    rewrite !terminated_map. repeat split.
    + do 2 f_equal. apply flat_map_ext. intros seg.
      rewrite <- !app_assoc. reflexivity.
    + do 2 f_equal. apply flat_map_ext. intros seg.
      rewrite <- !app_assoc. reflexivity.
Qed.

Lemma exhausted_column_only_fill_witness :
  let e := mk_column [] 4 in
  let c := column_of "abc def" 3 in
  end_ colstate_init e = true /\ size e = 0
  /\ fill_in_range TAB (width e) /\ fill_in_range TAB (width c)
  /\ emit_col [] colstate_init e = ([], colstate_init)
  /\ tabulate_size_t 7 [] [SPACE] TAB [e; c]
     = Some (flat_map
               (fun seg =>
                  repeat TAB (fill_count TAB 0 (width e))
                  ++ [SPACE] ++ seg ++ [LF])
               (lines_of [SPACE] TAB [c])).
Proof.
  intros e c.
  assert (He : end_ colstate_init e = true) by reflexivity.
  assert (Hz : size e = 0) by reflexivity.
  assert (Hr : fill_in_range TAB (width e)) by (vm_compute; discriminate).
  assert (Hrc : fill_in_range TAB (width c)) by (vm_compute; discriminate).
  split; [exact He|]. split; [exact Hz|]. split; [exact Hr|].
  split; [exact Hrc|].
  destruct (exhausted_column_only_fill [] [SPACE] TAB colstate_init e c
              He Hr Hrc) as [H1 [_ [_ [_ H5]]]].
  split; [exact H1|].
  assert (F1 : size c <= 7) by (vm_compute; lia).
  assert (F2 : width e < 7) by (vm_compute; lia).
  assert (F3 : width c < 7) by (vm_compute; lia).
  exact (proj1 (proj2 (H5 Hz 7 F1 F2 F3))).
Defined.

(** C7 (as stated) fails for a tab fill and a width of [SIZE_MAX]: the fill
    of an exhausted column that is not the last never ends, so no line is
    completed. *)
Lemma exhausted_widest_tab_column_never_filled :
  let e := mk_column [] huge_width in
  end_ colstate_init e = true
  /\ forall fuel os,
     emit_line_size_t fuel os [SPACE] TAB [colstate_init; colstate_init]
       [e; column_of "a" 1] = None.
Proof.
  intros e. split; [reflexivity|]. intros fuel os.
  apply (emit_line_size_t_stuck huge_width);
    [apply N2Nat.id | reflexivity | reflexivity | reflexivity].
Qed.

(** ** The example of the documentation *)

(** C8 (as amended).  In
    [tabulate(out, " | ", ' ', column("abc def ghi", 6),
              column("123 4432 17 8989", 4))]
    the first column is written as ["abc"], ["def"], ["ghi"]: after ["abc"]
    the word ["def"] would end at position 7 of a column of width 6.  The
    second column breaks after ["123"] because ["4432"] does not fit, and
    is written as ["123"], ["4432"], ["17"], ["8989"].  The output is the
    value of a function of the arguments, four lines. *)
Theorem example_output :
  lines_of example_sep SPACE [example_col1]
  = map list_ascii_of_string ["abc"; "def"; "ghi"]%string
  /\ lines_of example_sep SPACE [example_col2]
     = map list_ascii_of_string ["123"; "4432"; "17"; "8989"]%string
  /\ nextWordFits (mk_colstate 4 3) example_col1 = false
  /\ nextWordFits (mk_colstate 4 3) example_col2 = false
  /\ tabulate [] example_sep SPACE [example_col1; example_col2]
     = Some (flat_map (fun l => list_ascii_of_string l ++ [LF])
               ["abc    | 123"; "def    | 4432"; "ghi    | 17";
                "       | 8989"]%string).
Proof. repeat split; reflexivity. Qed.

(** C8 (as stated) fails: the first line segment of the first column is
    ["abc"], not ["abc def"], which has 7 characters in a column of
    width 6. *)
Lemma example_first_segment_is_not_abc_def :
  col_seg colstate_init example_col1 = list_ascii_of_string "abc"
  /\ col_seg colstate_init example_col1 <> list_ascii_of_string "abc def"
  /\ lines_of example_sep SPACE [example_col1]
     <> map list_ascii_of_string ["abc def"; "ghi"]%string.
Proof. repeat split; try reflexivity; discriminate. Qed.

(** * Further properties of the code *)

(** ** A single column, line after line *)

Lemma word_len_le (rest : list ascii) : word_len rest <= List.length rest.
Proof.
  induction rest as [|ch rest IH]; simpl; auto.
  destruct (Ascii.eqb ch NUL || isws ch); lia.
Qed.

(** ** The characters of the words *)

Lemma wrap_line_word_chars (rest : list ascii) (w l : nat) :
  word_chars rest
  = word_chars (fst (wrap_line rest w l))
    ++ word_chars (skipn (snd (wrap_line rest w l)) rest).
Proof.
  destruct (wrap_line_split rest w l) as [_ [[H1 H2]|[d [H1 [H2 H3]]]]].
  - rewrite H2, skipn_all, <- H1. unfold word_chars. simpl.
    rewrite app_nil_r. reflexivity.
  - rewrite H1 at 1. unfold word_chars. rewrite filter_app. simpl.
    rewrite H2. reflexivity.
Qed.

Lemma tabulate_lines_word_chars (sep : list ascii) (fill : ascii)
    (c : column) (fuel : nat) :
  forall st, size c - cp st <= fuel ->
  word_chars (List.concat (tabulate_lines fuel sep fill [st] [c]))
  = word_chars (skipn (cp st) (p c)).
Proof.
  induction fuel as [|fuel IH]; intros st Hf.
  - rewrite tabulate_lines_single_0, skipn_all2 by (fold (size c); lia).
    reflexivity.
  - rewrite tabulate_lines_single. destruct (end_ st c) eqn:E.
    + apply end_true_iff in E. rewrite skipn_all2 by exact E. reflexivity.
    + pose proof (col_next_advances st c E) as Hadv.
      rewrite concat_cons. unfold word_chars at 1. rewrite filter_app.
      change (filter (fun ch => negb (is_break ch))
                (List.concat (tabulate_lines fuel sep fill [col_next st c] [c])))
        with (word_chars
                (List.concat (tabulate_lines fuel sep fill [col_next st c] [c]))).
      rewrite IH by lia. rewrite col_next_skipn, col_seg_wrap.
      symmetry. apply wrap_line_word_chars.
Qed.

(** X1.  The lines of a column tabulated alone hold, in order, every
    character of its text that is neither blank, nor newline, nor NUL:
    wrapping loses and reorders no character of a word. *)
Theorem word_characters_preserved (sep : list ascii) (fill : ascii)
    (c : column) :
  word_chars (List.concat (lines_of sep fill [c])) = word_chars (p c).
Proof.
  rewrite lines_of_single.
  rewrite tabulate_lines_word_chars by (simpl; lia). reflexivity.
Qed.

(** ** The fit test in closed form *)

(** X2.  [nextWordFits] answers whether the line position plus the length
    of the run of characters up to the next blank or NUL is below the width:
    the blank and the word after it then end within the width. *)
Theorem nextWordFits_closed_form (st : colstate) (c : column) :
  nextWordFits st c
  = (lp st + word_len (skipn (cp st) (p c)) <? width c).
Proof. rewrite nextWordFits_scan. apply fits_scan_word_len. Qed.

(** ** Texts whose words all fit *)

Lemma tabulate_lines_within (sep : list ascii) (fill : ascii) (c : column) :
  (forall i, first_word (skipn i (p c)) <= width c) ->
  forall fuel st, lp st = 0 ->
  Forall (fun l => List.length l <= width c)
    (tabulate_lines fuel sep fill [st] [c]).
Proof.
  intros Hw. induction fuel as [|fuel IH]; intros st Hlp.
  - rewrite tabulate_lines_single_0. constructor.
  - rewrite tabulate_lines_single. destruct (end_ st c); constructor.
    + rewrite col_seg_wrap, Hlp.
      destruct (wrap_line_bound (skipn (cp st) (p c)) (width c) 0)
        as [H|[H _]]; [exact H|].
      specialize (Hw (cp st)). simpl in H. lia.
    + apply IH. reflexivity.
Qed.

(** X3.  When no word of the text is longer than the width, no line of the
    column is longer than the width. *)
Theorem lines_within_width (sep : list ascii) (fill : ascii) (c : column) :
  (forall i, first_word (skipn i (p c)) <= width c) ->
  Forall (fun l => List.length l <= width c) (lines_of sep fill [c]).
Proof.
  intros Hw. rewrite lines_of_single.
  apply tabulate_lines_within; [exact Hw | reflexivity].
Qed.

Lemma lines_within_width_witness :
  let c := column_of "ab cd" 3 in
  (forall i, first_word (skipn i (p c)) <= width c)
  /\ Forall (fun l => List.length l <= width c) (lines_of [SPACE] SPACE [c]).
Proof.
  intros c.
  assert (Hw : forall i, first_word (skipn i (p c)) <= width c).
  { intros i. do 5 (destruct i as [|i]; [simpl; lia|]).
    destruct i; simpl; lia. }
  split; [exact Hw|].
  exact (lines_within_width [SPACE] SPACE c Hw).
Defined.

(** ** Cells of exact width *)

(** X4.  With a fill other than a tab, a column that is not the last and
    whose segment starts a line with a word no longer than the width
    occupies exactly [width] characters of the line: its segment and the
    fill up to the width; the separator follows. *)
Theorem cell_has_exact_width (os : ostream) (sep : list ascii)
    (fill : ascii) (st : colstate) (col col2 : column)
    (state : list colstate) (cs : list column) :
  fill <> TAB -> lp st = 0 ->
  first_word (skipn (cp st) (p col)) <= width col ->
  let cell :=
    col_seg st col
    ++ repeat fill (width col - List.length (col_seg st col)) in
  List.length cell = width col
  /\ emit_line os sep fill (st :: state) (col :: col2 :: cs)
     = (let (os3, state3) :=
          emit_line (os ++ cell ++ sep) sep fill state (col2 :: cs) in
        (os3, col_next st col :: state3)).
Proof.
  intros Hf Hlp Hw cell.
  assert (Hlen : List.length (col_seg st col) <= width col).
  { rewrite col_seg_wrap, Hlp.
    destruct (wrap_line_bound (skipn (cp st) (p col)) (width col) 0)
      as [H|[H _]]; [exact H | simpl in H; lia]. }
  split.
  - unfold cell. rewrite length_app, repeat_length. lia.
  - rewrite emit_line_inner, emit_col_app.
    cbv beta iota zeta. rewrite emit_col_lp, Hlp. simpl plus.
    unfold fill_count. apply Ascii.eqb_neq in Hf. rewrite Hf.
    unfold cell, col_next. rewrite <- !app_assoc. reflexivity.
Qed.

Lemma cell_has_exact_width_witness :
  let col := column_of "ab cd" 3 in
  let cell :=
    col_seg colstate_init col
    ++ repeat SPACE (width col - List.length (col_seg colstate_init col)) in
  SPACE <> TAB /\ lp colstate_init = 0
  /\ first_word (skipn (cp colstate_init) (p col)) <= width col
  /\ List.length cell = width col.
Proof.
  intros col cell.
  assert (Hf : SPACE <> TAB) by discriminate.
  assert (Hw : first_word (skipn (cp colstate_init) (p col)) <= width col)
    by (simpl; lia).
  split; [exact Hf|]. split; [reflexivity|]. split; [exact Hw|].
  exact (proj1 (cell_has_exact_width [] [SPACE] SPACE colstate_init col col
                  [colstate_init] [] Hf eq_refl Hw)).
Defined.

(** ** The cursor *)

(** X5.  A call of [emit_col] moves [cp] forward only and never beyond the
    end of the text once it is within it; it emits no more characters than
    it consumes, and consumes at most one character that it does not
    emit. *)
Theorem cursor_invariants (os : ostream) (st : colstate) (c : column) :
  cp st <= cp (snd (emit_col os st c))
  /\ cp (snd (emit_col os st c)) <= Nat.max (cp st) (size c)
  /\ lp st <= lp (snd (emit_col os st c))
  /\ lp (snd (emit_col os st c)) - lp st
     <= cp (snd (emit_col os st c)) - cp st
  /\ cp (snd (emit_col os st c)) - cp st
     <= S (lp (snd (emit_col os st c)) - lp st).
Proof.
  rewrite emit_col_wrap. simpl.
  destruct (wrap_line_consumed (skipn (cp st) (p c)) (width c) (lp st))
    as [Hle _].
  rewrite length_skipn in Hle. fold (size c) in Hle.
  destruct (wrap_line_split (skipn (cp st) (p c)) (width c) (lp st))
    as [_ [[H1 H2]|[d [_ [_ H3]]]]].
  - rewrite H1 in H2 at 2. lia.
  - lia.
Qed.

(** ** The stream *)

(** X6.  [tabulate] only appends: what it writes after a stream [os] is
    what it writes on an empty stream, after [os]. *)
Theorem tabulate_appends (os : ostream) (sep : list ascii) (fill : ascii)
    (cols : list column) :
  tabulate os sep fill cols
  = option_map (fun out => os ++ out) (tabulate [] sep fill cols).
Proof. rewrite !tabulate_lines_of. reflexivity. Qed.

(** ** Columns built from C strings *)

Lemma strlen_le (s : list ascii) : strlen s <= List.length s.
Proof.
  induction s as [|ch s IH]; simpl; auto.
  destruct (Ascii.eqb ch NUL); lia.
Qed.

Lemma strlen_no_nul (s : list ascii) :
  Forall (fun a => a <> NUL) (firstn (strlen s) s).
Proof.
  induction s as [|ch s IH]; simpl; [constructor|].
  destruct (Ascii.eqb ch NUL) eqn:E; simpl; constructor; auto.
  apply Ascii.eqb_neq. exact E.
Qed.

Lemma strlen_terminator (s : list ascii) : nth (strlen s) s NUL = NUL.
Proof.
  induction s as [|ch s IH]; simpl; auto.
  destruct (Ascii.eqb ch NUL) eqn:E; simpl; auto.
  apply Ascii.eqb_eq. exact E.
Qed.

(** X7.  A column built from a C string has the length [strlen] gives, a
    text without NUL, and reads the memory of the string up to and with its
    terminator; on such a column [linebreak] is the reference algorithm of
    the specification, for every state and character. *)
Theorem cstring_column (s : list ascii) (w : nat) :
  size (column_cstr s w) = strlen s
  /\ Forall (fun a => a <> NUL) (p (column_cstr s w))
  /\ (forall i, i <= strlen s -> at_ (column_cstr s w) i = nth i s NUL)
  /\ (forall st ch,
        linebreak st ch (column_cstr s w)
        = would_break (p (column_cstr s w)) w (cp st) (lp st) ch).
Proof.
  assert (Hsize : size (column_cstr s w) = strlen s).
  { unfold size, column_cstr. simpl.
    apply firstn_length_le. apply strlen_le. }
  split; [exact Hsize|]. split; [apply strlen_no_nul|]. split.
  - intros i Hi. unfold at_, column_cstr. simpl. rewrite nth_firstn.
    destruct (Nat.ltb_spec i (strlen s)) as [Hlt|Hge]; [reflexivity|].
    replace i with (strlen s) by lia. symmetry. apply strlen_terminator.
  - intros st ch. unfold linebreak, would_break, word_fits.
    rewrite nextWordFits_scan. simpl width.
    rewrite fits_scan_word_fits; [reflexivity|].
    apply Forall_skipn_tail. apply strlen_no_nul.
Qed.

Lemma cstring_column_witness :
  let s := ["a"; "b"; NUL; "c"]%char in
  2 <= strlen s
  /\ size (column_cstr s 4) = 2
  /\ at_ (column_cstr s 4) 2 = nth 2 s NUL.
Proof.
  intros s.
  assert (H : 2 <= strlen s) by (simpl; lia).
  split; [exact H|].
  destruct (cstring_column s 4) as [H1 [_ [H3 _]]].
  split; [exact H1 | exact (H3 2 H)].
Defined.

(** ** When nothing is written *)

Lemma terminated_nil (ls : list (list ascii)) :
  terminated ls = [] -> ls = [].
Proof.
  destruct ls as [|l ls]; auto. unfold terminated. simpl.
  intros H. apply app_eq_nil in H. destruct H as [H _].
  apply app_eq_nil in H. destruct H as [_ H]. discriminate.
Qed.

(** X8.  [tabulate] leaves the stream as it was exactly when every text is
    empty: one character in one text is enough for a line to be written. *)
Theorem tabulate_writes_nothing_iff (os : ostream) (sep : list ascii)
    (fill : ascii) (cols : list column) :
  tabulate os sep fill cols = Some os <-> Forall (fun c => size c = 0) cols.
Proof.
  rewrite tabulate_lines_of. split.
  - intros H. injection H as H.
    rewrite <- (app_nil_r os) in H at 2. apply app_inv_head in H.
    apply terminated_nil in H.
    apply (f_equal (@List.length _)) in H. rewrite lines_of_length in H.
    simpl in H. apply Forall_forall. intros c Hc.
    assert (Hle : rounds_from (size c) colstate_init c
                  <= list_max
                       (map (fun c => rounds_from (size c) colstate_init c)
                          cols)).
    { assert (Hall := proj1 (list_max_le
                 (map (fun c => rounds_from (size c) colstate_init c) cols)
                 _) (Nat.le_refl _)).
      rewrite Forall_forall in Hall. apply Hall.
      apply (in_map (fun c => rounds_from (size c) colstate_init c)).
      exact Hc. }
    rewrite H in Hle. destruct (size c) as [|n] eqn:E; auto.
    simpl in Hle. unfold end_ in Hle. rewrite E in Hle. simpl in Hle. lia.
  - intros H.
    assert (Hl : List.length (lines_of sep fill cols) = 0).
    { rewrite lines_of_length. apply list_max_zero. intros c Hc.
      rewrite Forall_forall in H. apply rounds_from_end.
      apply end_true_iff. rewrite (H c Hc). simpl. lia. }
    destruct (lines_of sep fill cols); [|discriminate].
    simpl. rewrite app_nil_r. reflexivity.
Qed.

(** ** Columns are wrapped independently *)

Lemma seg_at_next (k : nat) (st : colstate) (c : column) :
  seg_at k (col_next st c) c = seg_at (S k) st c.
Proof. unfold seg_at. rewrite Nat.iter_succ_r. reflexivity. Qed.

Lemma segs_at_next (k : nat) (state : list colstate) :
  forall c, segs_at k (next_states state c) c = segs_at (S k) state c.
Proof.
  induction state as [|st state IH]; intros [|col c]; simpl; auto.
  rewrite seg_at_next, IH. reflexivity.
Qed.

Lemma segs_at_initial_state (k : nat) (cols : list column) :
  segs_at k (initial_state cols) cols
  = map (fun c => seg_at k colstate_init c) cols.
Proof.
  unfold initial_state. induction cols as [|c cols IH]; simpl; auto.
  rewrite IH. reflexivity.
Qed.

Lemma iter_col_next_end (k : nat) (st : colstate) (c : column) :
  end_ st c = true ->
  end_ (Nat.iter k (fun s => col_next s c) st) c = true.
Proof.
  intros H. induction k as [|k IH]; simpl; auto.
  apply col_next_end. exact IH.
Qed.

Lemma line_cells_join (sep : list ascii) (fill : ascii)
    (state : list colstate) :
  forall c, Forall (fun st => lp st = 0) state ->
  line_cells sep fill state c = join_cells sep fill (segs_at 0 state c) c.
Proof.
  induction state as [|st state IH]; intros [|col c] H; simpl; auto.
  inversion H as [|? ? Hst Hrest]; subst.
  rewrite IH by exact Hrest. rewrite Hst. reflexivity.
Qed.

Lemma tabulate_lines_nth (sep : list ascii) (fill : ascii)
    (c : list column) (fuel : nat) :
  forall k state,
  Forall (fun st => lp st = 0) state ->
  k < List.length (tabulate_lines fuel sep fill state c) ->
  nth k (tabulate_lines fuel sep fill state c) []
  = join_cells sep fill (segs_at k state c) c.
Proof.
  induction fuel as [|fuel IH]; intros k state Hlp Hk;
    cbn [tabulate_lines] in *;
    destruct (is_unconsumed state c); simpl in Hk; try lia.
  rewrite emit_line_cells in *. simpl in Hk.
  destruct k as [|k]; simpl.
  - apply line_cells_join. exact Hlp.
  - rewrite IH; [|apply next_states_lp|lia].
    rewrite segs_at_next. reflexivity.
Qed.

Lemma tabulate_lines_single_nth (sep : list ascii) (fill : ascii)
    (c : column) (fuel : nat) :
  forall k st, size c - cp st <= fuel ->
  nth k (tabulate_lines fuel sep fill [st] [c]) [] = seg_at k st c.
Proof.
  induction fuel as [|fuel IH]; intros k st Hf.
  - rewrite tabulate_lines_single_0. unfold seg_at.
    destruct k; simpl; symmetry; apply col_seg_end.
    + apply end_true_iff. lia.
    + apply col_next_end. apply iter_col_next_end. apply end_true_iff. lia.
  - rewrite tabulate_lines_single. destruct (end_ st c) eqn:E.
    + unfold seg_at. destruct k; simpl; symmetry; apply col_seg_end; auto.
      apply col_next_end. apply iter_col_next_end. exact E.
    + pose proof (col_next_advances st c E) as Hadv.
      destruct k as [|k]; simpl; [reflexivity|].
      rewrite IH by lia. apply seg_at_next.
Qed.

(** X9.  For widths in the range of the fill loop (a [size_t], at most
    [SIZE_MAX - 7] for a tab fill), [tabulate] with its fill loops on
    [size_t] writes the lines of [lines_of], and every line is the
    side-by-side join of the lines of its columns tabulated alone: line
    [k] of the table holds, for each column, line [k] of that column
    (nothing when the column has fewer lines), followed by fill and
    separator except after the last column. *)
Theorem lines_are_joined_columns (sep : list ascii) (fill : ascii)
    (cols : list column) (k : nat) :
  Forall (fun c => fill_in_range fill (width c)) cols ->
  k < List.length (lines_of sep fill cols) ->
  (forall fuel os, max_size cols <= fuel ->
     Forall (fun c => width c < fuel) cols ->
     tabulate_size_t fuel os sep fill cols
     = Some (os ++ flat_map (fun l => l ++ [LF]) (lines_of sep fill cols)))
  /\ nth k (lines_of sep fill cols) []
     = join_cells sep fill
         (map (fun c => nth k (lines_of sep fill [c]) []) cols) cols.
Proof.
  intros Hr Hk. split.
  - intros fuel os Hm Hf. rewrite tabulate_size_t_exact by assumption.
    apply tabulate_lines_of.
  - unfold lines_of at 1.
    rewrite tabulate_lines_nth; [|apply initial_state_lp|exact Hk].
    rewrite segs_at_initial_state. f_equal. apply map_ext. intros c.
    rewrite lines_of_single. symmetry.
    apply tabulate_lines_single_nth. simpl. lia.
Qed.

Lemma lines_are_joined_columns_witness :
  let cols := [example_col1; example_col2] in
  Forall (fun c => fill_in_range SPACE (width c)) cols
  /\ 1 < List.length (lines_of example_sep SPACE cols)
  /\ nth 1 (lines_of example_sep SPACE cols) []
     = join_cells example_sep SPACE
         (map (fun c => nth 1 (lines_of example_sep SPACE [c]) []) cols) cols.
Proof.
  intros cols.
  assert (Hr : Forall (fun c => fill_in_range SPACE (width c)) cols)
    by (repeat constructor; vm_compute; discriminate).
  assert (Hk : 1 < List.length (lines_of example_sep SPACE cols))
    by (vm_compute; lia).
  split; [exact Hr|]. split; [exact Hk|].
  exact (proj2 (lines_are_joined_columns example_sep SPACE cols 1 Hr Hk)).
Defined.

(** ** A text that fits on one line *)

Lemma wrap_line_all (w : nat) (rest : list ascii) :
  Forall (fun ch => ch <> LF /\ ch <> NUL) rest ->
  forall l, l + List.length rest <= w ->
  wrap_line rest w l = (rest, List.length rest).
Proof.
  induction 1 as [|ch rest [Hlf Hnul] Hrest IH]; intros l Hl; simpl in *;
    [reflexivity|].
  apply Ascii.eqb_neq in Hlf, Hnul. rewrite Hlf, Hnul. simpl.
  rewrite fits_scan_word_len.
  pose proof (word_len_le rest) as Hwl.
  assert (Hfit : (l + word_len rest <? w) = true) by (apply Nat.ltb_lt; lia).
  rewrite Hfit, andb_false_r. rewrite IH by lia. reflexivity.
Qed.

(** X10.  A single column whose text is not empty, holds no newline and no
    NUL, and is no longer than the width is written unchanged on one line,
    without fill or separator. *)
Theorem short_text_on_one_line (os : ostream) (sep : list ascii)
    (fill : ascii) (c : column) :
  0 < size c -> size c <= width c ->
  Forall (fun ch => ch <> LF /\ ch <> NUL) (p c) ->
  tabulate os sep fill [c] = Some (os ++ p c ++ [LF]).
Proof.
  intros Hpos Hfit Hch. rewrite tabulate_lines_of, lines_of_single.
  destruct (size c) as [|n] eqn:E; [lia|].
  rewrite tabulate_lines_single.
  assert (He : end_ colstate_init c = false)
    by (apply end_false_iff; simpl; lia).
  rewrite He.
  assert (Hw : wrap_line (p c) (width c) 0 = (p c, S n)).
  { rewrite <- E. apply wrap_line_all; [exact Hch|]. simpl.
    fold (size c). lia. }
  assert (Hseg : col_seg colstate_init c = p c).
  { rewrite col_seg_wrap. simpl. rewrite Hw. reflexivity. }
  assert (Hend : end_ (col_next colstate_init c) c = true).
  { apply end_true_iff. rewrite col_next_cp, emit_col_cp. simpl.
    rewrite Hw. simpl. lia. }
  rewrite Hseg. destruct n as [|n].
  - rewrite tabulate_lines_single_0. unfold terminated. simpl.
    rewrite app_nil_r. reflexivity.
  - rewrite tabulate_lines_single, Hend. unfold terminated. simpl.
    rewrite app_nil_r. reflexivity.
Qed.

Lemma short_text_on_one_line_witness :
  let c := column_of "ab cd" 8 in
  0 < size c /\ size c <= width c
  /\ Forall (fun ch => ch <> LF /\ ch <> NUL) (p c)
  /\ tabulate [] [SPACE] SPACE [c] = Some (p c ++ [LF]).
Proof.
  intros c.
  assert (H1 : 0 < size c) by (vm_compute; lia).
  assert (H2 : size c <= width c) by (vm_compute; lia).
  assert (H3 : Forall (fun ch => ch <> LF /\ ch <> NUL) (p c))
    by (repeat constructor; discriminate).
  split; [exact H1|]. split; [exact H2|]. split; [exact H3|].
  exact (short_text_on_one_line [] [SPACE] SPACE c H1 H2 H3).
Defined.

(** ** Newlines in the text *)

Lemma wrap_line_stops_at_newline (w : nat) (pre rest' : list ascii) :
  ~ In LF pre ->
  forall l,
  (exists suf, pre = fst (wrap_line (pre ++ LF :: rest') w l) ++ suf)
  /\ snd (wrap_line (pre ++ LF :: rest') w l) <= S (List.length pre).
Proof.
  induction pre as [|a pre IH]; intros Hnl l; simpl.
  - change (Ascii.eqb LF NUL) with false. change (Ascii.eqb LF LF) with true.
    simpl. split; [exists []; reflexivity | lia].
  - destruct (Ascii.eqb a NUL); simpl.
    { split; [exists (a :: pre); reflexivity | lia]. }
    destruct (Ascii.eqb a LF
              || isws a && negb (fits_scan (pre ++ LF :: rest') w l)); simpl.
    { split; [exists (a :: pre); reflexivity | lia]. }
    assert (Hnl' : ~ In LF pre) by (intros H; apply Hnl; right; exact H).
    destruct (IH Hnl' (S l)) as [[suf Hs] Hn].
    destruct (wrap_line (pre ++ LF :: rest') w (S l)) as [seg n];
      simpl in *.
    split; [exists suf; congruence | lia].
Qed.

(** X12.  A newline in the text ends the line whatever room is left: when
    the text at the cursor is [pre], a newline and more, with no newline in
    [pre], the segment of [emit_col] is a prefix of [pre], and the cursor
    does not pass the character after the newline. *)
Theorem newline_ends_the_line (os : ostream) (st : colstate) (c : column)
    (pre rest' : list ascii) :
  skipn (cp st) (p c) = pre ++ LF :: rest' -> ~ In LF pre ->
  (exists suf, pre = col_seg st c ++ suf)
  /\ fst (emit_col os st c) = os ++ col_seg st c
  /\ cp (snd (emit_col os st c)) <= cp st + S (List.length pre).
Proof.
  intros Hs Hnl.
  destruct (wrap_line_stops_at_newline (width c) pre rest' Hnl (lp st))
    as [Hp Hn].
  rewrite emit_col_cp, col_seg_wrap, emit_col_wrap, Hs. simpl.
  split; [exact Hp|]. split; [reflexivity | lia].
Qed.

Lemma newline_ends_the_line_witness :
  let c := mk_column ["a"; "b"; LF; "c"; "d"]%char 10 in
  skipn (cp colstate_init) (p c) = ["a"; "b"]%char ++ LF :: ["c"; "d"]%char
  /\ ~ In LF ["a"; "b"]%char
  /\ cp (snd (emit_col [] colstate_init c)) <= 0 + 3.
Proof.
  intros c.
  assert (H1 : skipn (cp colstate_init) (p c)
               = ["a"; "b"]%char ++ LF :: ["c"; "d"]%char) by reflexivity.
  assert (H2 : ~ In LF ["a"; "b"]%char).
  { simpl. intros [H|[H|H]]; try discriminate H. exact H. }
  split; [exact H1|]. split; [exact H2|].
  exact (proj2 (proj2 (newline_ends_the_line [] colstate_init c
                         ["a"; "b"]%char ["c"; "d"]%char H1 H2))).
Defined.

(** ** A single column needs no fill and no separator *)

Lemma tabulate_lines_single_any (sep sep' : list ascii) (fill fill' : ascii)
    (c : column) (fuel : nat) :
  forall st,
  tabulate_lines fuel sep fill [st] [c]
  = tabulate_lines fuel sep' fill' [st] [c].
Proof.
  induction fuel as [|fuel IH]; intros st.
  - rewrite !tabulate_lines_single_0. reflexivity.
  - rewrite !tabulate_lines_single. destruct (end_ st c); auto.
    rewrite IH. reflexivity.
Qed.

(** X13.  What [tabulate] writes for a single column does not depend on the
    separator or on the fill character: neither is written after the last
    column. *)
Theorem single_column_ignores_fill (os : ostream) (sep sep' : list ascii)
    (fill fill' : ascii) (c : column) :
  tabulate os sep fill [c] = tabulate os sep' fill' [c].
Proof.
  rewrite !tabulate_lines_of, !lines_of_single.
  rewrite (tabulate_lines_single_any sep sep' fill fill'). reflexivity.
Qed.

(** ** Newline and NUL split the text *)

Lemma tabulate_lines_single_fuel (sep : list ascii) (fill : ascii)
    (c : column) (fuel : nat) :
  forall fuel' st,
  size c - cp st <= fuel -> size c - cp st <= fuel' ->
  tabulate_lines fuel sep fill [st] [c]
  = tabulate_lines fuel' sep fill [st] [c].
Proof.
  induction fuel as [|fuel IH]; intros fuel' st H H'.
  - rewrite tabulate_lines_single_0. destruct fuel' as [|fuel'].
    + rewrite tabulate_lines_single_0. reflexivity.
    + rewrite tabulate_lines_single.
      assert (E : end_ st c = true) by (apply end_true_iff; lia).
      rewrite E. reflexivity.
  - rewrite tabulate_lines_single. destruct (end_ st c) eqn:E.
    + destruct fuel' as [|fuel'].
      * rewrite tabulate_lines_single_0. reflexivity.
      * rewrite tabulate_lines_single, E. reflexivity.
    + pose proof (col_next_advances st c E) as Hadv.
      apply end_false_iff in E. destruct fuel' as [|fuel']; [lia|].
      rewrite tabulate_lines_single.
      assert (E' : end_ st c = false) by (apply end_false_iff; exact E).
      rewrite E'. f_equal. apply IH; lia.
Qed.

Lemma tabulate_lines_single_shift (sep : list ascii) (fill : ascii)
    (c1 c2 : column) (fuel : nat) :
  width c1 = width c2 ->
  forall st1 st2,
  skipn (cp st1) (p c1) = skipn (cp st2) (p c2) -> lp st1 = lp st2 ->
  tabulate_lines fuel sep fill [st1] [c1]
  = tabulate_lines fuel sep fill [st2] [c2].
Proof.
  intros Hw. induction fuel as [|fuel IH]; intros st1 st2 Hs Hl.
  - rewrite !tabulate_lines_single_0. reflexivity.
  - rewrite !tabulate_lines_single, !end_skipn, <- Hs.
    destruct (skipn (cp st1) (p c1)) eqn:E; [reflexivity|].
    rewrite !col_seg_wrap, <- Hs, <- Hw, <- Hl, E. f_equal.
    apply IH; [|reflexivity].
    rewrite !col_next_skipn, <- Hs, <- Hw, <- Hl, E. reflexivity.
Qed.

Lemma skipn_length_app (A : Type) (x y : list A) :
  skipn (List.length x) (x ++ y) = y.
Proof. induction x as [|a x IH]; simpl; auto. Qed.

Lemma wrap_line_word_break (w : nat) (pre rest' : list ascii) (d : ascii) :
  Forall (fun ch => is_break ch = false) pre -> d = LF \/ d = NUL ->
  forall l, wrap_line (pre ++ d :: rest') w l = (pre, S (List.length pre)).
Proof.
  intros Hpre Hd.
  induction Hpre as [|a pre Ha Hpre IH]; intros l; simpl.
  - destruct Hd as [-> | ->]; reflexivity.
  - unfold is_break in Ha.
    apply orb_false_iff in Ha. destruct Ha as [Ha Hws].
    apply orb_false_iff in Ha. destruct Ha as [Hn Hl].
    rewrite Hn, Hl, Hws. simpl. rewrite IH. reflexivity.
Qed.

(** X14.  A newline, and a NUL inside a [std::string] text, that follows a
    word (a run without blank, newline or NUL, possibly empty) splits the
    text: the column is written as that word on a line of its own, followed
    by the lines of the rest of the text wrapped on its own. *)
Theorem hard_break_splits_text (sep : list ascii) (fill : ascii)
    (pre rest' : list ascii) (d : ascii) (w : nat) :
  Forall (fun ch => is_break ch = false) pre -> d = LF \/ d = NUL ->
  lines_of sep fill [column_string (pre ++ d :: rest') w]
  = pre :: lines_of sep fill [column_string rest' w].
Proof.
  intros Hpre Hd. rewrite !lines_of_single.
  set (c := column_string (pre ++ d :: rest') w).
  set (c2 := column_string rest' w).
  assert (Hsize : size c = S (List.length pre + List.length rest')).
  { unfold size, c, column_string. simpl. rewrite length_app. simpl. lia. }
  rewrite Hsize, tabulate_lines_single.
  assert (He : end_ colstate_init c = false)
    by (apply end_false_iff; simpl; lia).
  assert (Hw : wrap_line (p c) (width c) 0 = (pre, S (List.length pre))).
  { unfold c, column_string. simpl. apply wrap_line_word_break; assumption. }
  assert (Hseg : col_seg colstate_init c = pre).
  { rewrite col_seg_wrap. exact (f_equal fst Hw). }
  assert (Hnext : skipn (cp (col_next colstate_init c)) (p c) = rest').
  { rewrite col_next_skipn.
    change (skipn (cp colstate_init) (p c)) with (p c).
    change (lp colstate_init) with 0. rewrite Hw.
    cbn [snd]. unfold c, column_string. cbn [p].
    change (pre ++ d :: rest') with (pre ++ [d] ++ rest').
    rewrite app_assoc.
    replace (S (List.length pre)) with (List.length (pre ++ [d]))
      by (rewrite length_app; simpl; lia).
    apply skipn_length_app. }
  rewrite He, Hseg. f_equal.
  rewrite (tabulate_lines_single_shift sep fill c c2
             (List.length pre + List.length rest') eq_refl
             (col_next colstate_init c) colstate_init Hnext eq_refl).
  apply tabulate_lines_single_fuel; unfold size, c2; simpl; lia.
Qed.

Lemma hard_break_splits_text_witness :
  let pre := ["a"; "b"]%char in
  Forall (fun ch => is_break ch = false) pre /\ (LF = LF \/ LF = NUL)
  /\ lines_of [SPACE] SPACE [column_string (pre ++ LF :: ["c"]%char) 4]
     = pre :: lines_of [SPACE] SPACE [column_string ["c"]%char 4].
Proof.
  intros pre.
  assert (H1 : Forall (fun ch => is_break ch = false) pre)
    by (repeat constructor).
  assert (H2 : LF = LF \/ LF = NUL) by (left; reflexivity).
  split; [exact H1|]. split; [exact H2|].
  exact (hard_break_splits_text [SPACE] SPACE pre ["c"]%char LF 4 H1 H2).
Defined.

(** ** Nothing but the text *)

Lemma subseq_app_head (x s l : list ascii) :
  subseq s l -> subseq (x ++ s) (x ++ l).
Proof.
  intros H. induction x as [|a x IH]; simpl; auto.
  apply subseq_take. exact IH.
Qed.

Lemma subseq_refl (l : list ascii) : subseq l l.
Proof. induction l; constructor; auto. Qed.

Lemma tabulate_lines_subseq (sep : list ascii) (fill : ascii) (c : column)
    (fuel : nat) :
  forall st,
  subseq (List.concat (tabulate_lines fuel sep fill [st] [c]))
    (skipn (cp st) (p c)).
Proof.
  induction fuel as [|fuel IH]; intros st.
  - rewrite tabulate_lines_single_0. apply subseq_nil.
  - rewrite tabulate_lines_single. destruct (end_ st c); [apply subseq_nil|].
    rewrite concat_cons. specialize (IH (col_next st c)).
    rewrite col_next_skipn in IH. rewrite col_seg_wrap.
    remember (skipn (cp st) (p c)) as rest eqn:Er.
    destruct (wrap_line_split rest (width c) (lp st))
      as [_ [[H1 H2]|[d [H1 _]]]].
    + rewrite H2, skipn_all in IH. inversion IH; subst.
      rewrite app_nil_r, <- H1. apply subseq_refl.
    + remember (fst (wrap_line rest (width c) (lp st))) as seg.
      remember (skipn (snd (wrap_line rest (width c) (lp st))) rest) as tl.
      rewrite H1. apply subseq_app_head. apply subseq_skip. exact IH.
Qed.

(** X15.  The characters of the lines of a column tabulated alone are
    characters of its text, in the order of the text and each at most once:
    nothing is written that the text does not hold. *)
Theorem lines_are_subsequence_of_text (sep : list ascii) (fill : ascii)
    (c : column) :
  subseq (List.concat (lines_of sep fill [c])) (p c).
Proof.
  rewrite lines_of_single.
  exact (tabulate_lines_subseq sep fill c (size c) colstate_init).
Qed.

(** ** The fill loop on [size_t] and the model on [nat] *)

(** X16.  For a width in the range of the fill loop (a [size_t], at most
    [SIZE_MAX - 7] for a tab fill) the index of the fill loop does not wrap:
    [switch_col] with its loop on [size_t] returns what [switch_col] gives,
    and so does [tabulate], for every fuel that covers the widths and the
    longest text. *)
Theorem size_t_fill_loop_refines (os : ostream) (sep : list ascii)
    (fill : ascii) (cols : list column) :
  Forall (fun c => fill_in_range fill (width c)) cols ->
  (forall c st fuel, In c cols -> width c - lp st < fuel ->
     switch_col_size_t fuel os st (width c) fill sep
     = Some (switch_col os st (width c) fill sep))
  /\ (forall fuel, max_size cols <= fuel ->
      Forall (fun c => width c < fuel) cols ->
      tabulate_size_t fuel os sep fill cols = tabulate os sep fill cols).
Proof.
  intros Hr. split.
  - intros c st fuel Hc Hf. apply switch_col_size_t_exact; [|exact Hf].
    rewrite Forall_forall in Hr. apply Hr. exact Hc.
  - intros fuel Hm Hf. apply tabulate_size_t_exact; assumption.
Qed.

Lemma size_t_fill_loop_refines_witness :
  let cols := [example_col1; example_col2] in
  Forall (fun c => fill_in_range TAB (width c)) cols
  /\ tabulate_size_t 16 [] example_sep TAB cols
     = tabulate [] example_sep TAB cols.
Proof.
  intros cols.
  assert (Hr : Forall (fun c => fill_in_range TAB (width c)) cols)
    by (repeat constructor; vm_compute; discriminate).
  split; [exact Hr|].
  apply (proj2 (size_t_fill_loop_refines [] example_sep TAB cols Hr)).
  - vm_compute. lia.
  - repeat constructor; vm_compute; lia.
Defined.

(** X17.  With a tab fill and a width of [SIZE_MAX], the fill loop of
    [switch_col] never ends from a line position below [SIZE_MAX] that is
    not 7 modulo 8: the index keeps its remainder modulo 8 when it wraps
    around, and never reaches the width. *)
Theorem widest_tab_fill_never_ends (os : ostream) (st : colstate)
    (sep : list ascii) (fuel : nat) :
  (N.of_nat (lp st) < SIZE_MAX)%N -> (N.of_nat (lp st) mod 8 <> 7)%N ->
  switch_col_size_t fuel os st huge_width TAB sep = None.
Proof.
  intros Hlt Hmod. unfold switch_col_size_t.
  change (Ascii.eqb TAB TAB) with true. cbv iota.
  unfold huge_width. rewrite N2Nat.id.
  pose proof (N.div_mod (N.of_nat (lp st)) 8) as Hd.
  pose proof (N.mod_lt (N.of_nat (lp st)) 8) as Hm.
  rewrite Hd by discriminate.
  rewrite fill_loop_never_ends; [reflexivity | lia |].
  apply N.Div0.div_lt_upper_bound. rewrite SIZE_MAX_value in Hlt.
  change (8 * 2 ^ 61)%N with 18446744073709551616%N. lia.
Qed.

Lemma widest_tab_fill_never_ends_witness :
  let st := mk_colstate 3 3 in
  (N.of_nat (lp st) < SIZE_MAX)%N /\ (N.of_nat (lp st) mod 8 <> 7)%N
  /\ switch_col_size_t 100 [] st huge_width TAB [SPACE] = None.
Proof.
  intros st.
  assert (H1 : (N.of_nat (lp st) < SIZE_MAX)%N) by reflexivity.
  assert (H2 : (N.of_nat (lp st) mod 8 <> 7)%N) by discriminate.
  split; [exact H1|]. split; [exact H2|].
  exact (widest_tab_fill_never_ends [] st [SPACE] 100 H1 H2).
Defined.
